(** * Ridelytics backend: geofenced ad matching, ranking and travel-time
      enrichment (app.ts) and the conversational near-set (chatHandler.ts)

    A shallow embedding of the two request handlers of the backend.

    Numbers.  Every [number] the handlers order or round is a finite
    double read from JSON or returned by the haversine helper.  A finite
    double is modelled by its exact rational value in [Q]: on finite doubles
    [<=], [!==], the sign of a subtraction and [Math.round] are all exact,
    so they coincide with the rational operations used here; a division
    rounds its quotient to the nearest double ([JS.div]).  Only [parseFloat]
    can produce [NaN] or an infinity; its result has the type [JS.number].

    Effects.  Reading ads.json, calling the routing service, the geocoder
    and the text generator are the effects of the handlers.  They are
    modelled by a read-only [World] of outcomes and a small monad [IO]
    that records the trace of effects performed and can throw. *)

From Stdlib Require Import List String Ascii ZArith QArith Qround Qabs Qpower Bool.
From Stdlib Require Import Sorted Permutation Lia Lqa DecimalString DecimalPos.
Import ListNotations.

Local Open Scope string_scope.
Local Open Scope Q_scope.

(** ** JavaScript built-ins used by the handlers *)

Module JS.

(** The result of [parseFloat]. *)
Inductive number : Type :=
| NaN
| Infinity (negative : bool)
| Finite (q : Q).

Definition isNaN (x : number) : bool :=
  match x with NaN => true | _ => false end.

(** [x < c] and [x > c] for a finite constant [c]; false on [NaN]. *)
Definition lt (x : number) (c : Q) : bool :=
  match x with
  | NaN => false
  | Infinity negative => negative
  | Finite q => negb (Qle_bool c q)
  end.

Definition gt (x : number) (c : Q) : bool :=
  match x with
  | NaN => false
  | Infinity negative => negb negative
  | Finite q => negb (Qle_bool q c)
  end.

(** The rational value of a finite number. *)
Definition valueOf (x : number) : Q :=
  match x with Finite q => q | _ => 0 end.

(** [Math.round]: the nearest integer, ties towards +infinity. *)
Definition Math_round (x : Q) : Q := inject_Z (Qfloor (x + 0.5)).

(** The double nearest to a real value (round to nearest, ties to even):
    the value is scaled to a 53-bit integer significand, with the exponent
    held at -1074 for subnormals.  Quotients of finite doubles by constants
    above 1 cannot overflow, so no infinity arises here. *)
Definition roundHalfEven (x : Q) : Z :=
  let f := Qfloor x in
  match Qcompare (x - inject_Z f) 0.5 with
  | Lt => f
  | Gt => (f + 1)%Z
  | Eq => if Z.even f then f else (f + 1)%Z
  end.

Definition floorLog2 (x : Q) : Z :=
  let g := (Z.log2 (Qnum x) - Z.log2 (Zpos (Qden x)))%Z in
  if Qle_bool (2 ^ g) x then g else (g - 1)%Z.

Definition double (x : Q) : Q :=
  match Qcompare x 0 with
  | Eq => 0
  | Gt =>
    let e := Z.max (floorLog2 x - 52) (-1074) in
    inject_Z (roundHalfEven (x / 2 ^ e)) * 2 ^ e
  | Lt =>
    let e := Z.max (floorLog2 (- x) - 52) (-1074) in
    - (inject_Z (roundHalfEven (- x / 2 ^ e)) * 2 ^ e)
  end.

(** [x / y] on doubles. *)
Definition div (x y : Q) : Q := double (x / y).

(** [!s] for a value that is a string or undefined. *)
Definition falsy (s : option string) : bool :=
  match s with
  | None => true
  | Some EmptyString => true
  | Some _ => false
  end.

(** [a || b] on strings that may be undefined. *)
Definition or_else (a : option string) (b : option string) : option string :=
  if falsy a then b else a.

(** [s.includes(sub)]. *)
Fixpoint includes (s sub : string) : bool :=
  String.prefix sub s ||
  match s with
  | EmptyString => false
  | String _ s' => includes s' sub
  end.

(** Decimal digits of a natural number, as in a template literal. *)
Definition string_of_N (n : N) : string :=
  NilEmpty.string_of_uint (N.to_uint n).

Definition string_of_nat (n : nat) : string := string_of_N (N.of_nat n).

Fixpoint zeros (n : nat) : string :=
  match n with O => "" | S n' => String "0" (zeros n') end.

(** [x.toFixed(f)] (Number.prototype.toFixed), for [|x| < 10^21]:
    n is the integer with n / 10^f closest to |x|, the larger one on a tie;
    its digits are padded to f + 1 places and the point is put before the
    last f of them.  From [10^21] on the built-in falls back to
    Number::toString, supplied as [toStringLarge]. *)
Definition toFixed (toStringLarge : Q -> string) (f : nat) (x : Q) : string :=
  let s := if Qle_bool 0 x then "" else "-" in
  let x := if Qle_bool 0 x then x else - x in
  if Qle_bool (inject_Z (10 ^ 21)) x then s ++ toStringLarge x
  else
    let n := Qfloor (x * inject_Z (10 ^ Z.of_nat f) + 0.5) in
    let m := string_of_N (Z.to_N n) in
    let k := String.length m in
    let m := if (k <=? f)%nat then zeros (f + 1 - k) ++ m else m in
    let k := String.length m in
    match f with
    | O => s ++ m
    | _ => s ++ substring 0 (k - f) m ++ "." ++ substring (k - f) f m
    end.

(** [Array.prototype.sort(compareFn)].  The sort is stable (ECMAScript
    2019); for a consistent [compareFn] the result is the unique stable
    arrangement, computed here by insertion from the right: an element
    moves past [y] only when [compareFn x y > 0]. *)
Section Sort.
Context {A : Type} (compareFn : A -> A -> Q).

Definition after (x y : A) : bool := negb (Qle_bool (compareFn x y) 0).

Fixpoint insert (x : A) (l : list A) : list A :=
  match l with
  | [] => [x]
  | y :: l' => if after x y then y :: insert x l' else x :: l
  end.

Fixpoint sort (l : list A) : list A :=
  match l with
  | [] => []
  | x :: l' => insert x (sort l')
  end.

End Sort.

(** [xs.map((x, index) => f x index)]. *)
Section MapIndex.
Context {A B : Type} (f : A -> nat -> B).

Fixpoint map_from (index : nat) (l : list A) : list B :=
  match l with
  | [] => []
  | x :: l' => f x index :: map_from (S index) l'
  end.

Definition mapi (l : list A) : list B := map_from 0 l.

End MapIndex.

(** [x * y] on doubles. *)
Definition mul (x y : Q) : Q := double (x * y).

(** [Math.floor]. *)
Definition Math_floor (x : Q) : Q := inject_Z (Qfloor x).

(** [x % y]: the remainder of the division truncated towards zero, which
    is exact on doubles. *)
Definition rem (x y : Q) : Q :=
  let q := x / y in
  x - y * inject_Z (if Qle_bool 0 q then Qfloor q else Qceiling q).

(** A whole number in a template literal: its decimal digits, with a minus
    sign when negative; from [10^21] on Number::toString writes an exponent
    and is supplied as [toStringLarge]. *)
Definition toStringInteger (toStringLarge : Q -> string) (x : Q) : string :=
  let s := if Qle_bool 0 x then "" else "-" in
  let x := if Qle_bool 0 x then x else - x in
  if Qle_bool (inject_Z (10 ^ 21)) x then s ++ toStringLarge x
  else s ++ string_of_N (Z.to_N (Qfloor x)).

(** [xs.slice(0, n)]. *)
Definition slice0 {A : Type} (n : nat) (l : list A) : list A := firstn n l.

(** [strs.join(sep)]. *)
Definition join (sep : string) (l : list string) : string :=
  String.concat sep l.

End JS.

(** ** The catalog and the effects of the handlers *)

(** A record of ads.json.  app.ts declares the interface without
    [description]; both files read the same objects. *)
Record Ad : Type := mkAd {
  id : string;
  businessName : string;
  description : string;
  imageUrl : string;
  websiteUrl : string;
  latitude : Q;
  longitude : Q;
  radius : Q;
  active : bool;
  priority : Q
}.

(** [{ ...ad, distance }]. *)
Record Match : Type := mkMatch {
  ad : Ad;
  distance : Q
}.

(** What a thrown value carries: its [name] and [message]. *)
Inductive Error : Type :=
| AbortError
| OtherError (message : string).

Definition error_message (e : Error) : string :=
  match e with
  | AbortError => "This operation was aborted"
  | OtherError message => message
  end.

(** One route of a routing answer, and the parsed answer. *)
Record Route : Type := mkRoute { duration : Q }.

Record OsrmData : Type := mkOsrmData {
  code : option string;
  routes : option (list Route)
}.

(** The HTTP answer of the routing service: status, content-type header,
    and the body as [json()] parses it ([None]: the body is not JSON and
    [json()] rejects). *)
Record Response : Type := mkResponse {
  status : nat;
  contentType : option string;
  body : option OsrmData
}.

(** The outcome of one [fetch] bounded by the 5 second abort timer. *)
Inductive FetchOutcome : Type :=
| TimedOut
| NetworkFailure (message : string)
| Answered (response : Response).

(** The answer of the reverse geocoder: the [address] object, if any. *)
Record Address : Type := mkAddress {
  city : option string;
  town : option string;
  suburb : option string;
  county : option string;
  state : option string
}.

Inductive GeocodeOutcome : Type :=
| GeocodeFailure
| GeocodeStatus (status : nat)
| GeocodeAnswer (address : option Address).

(** The world the handlers run in.  [adsFile] is the content of ads.json
    ([None]: the file cannot be read or parsed); [osrm i] is the outcome of
    the i-th routing call of a request; [gemini] is the text extracted from
    the generator's answer ([None]: the call throws). *)
Record World : Type := mkWorld {
  adsFile : option (list Ad);
  osrm : nat -> FetchOutcome;
  nominatim : GeocodeOutcome;
  GEMINI_API_KEY : option string;
  gemini : string -> option string
}.

Inductive Event : Type :=
| ReadAdsFile
| OsrmRequest (userLng userLat adLng adLat : Q)
| NominatimRequest (lat lng : Q)
| GenerateContent (prompt : string).

(** Computations that log their effects and may throw. *)
Inductive Completion (A : Type) : Type :=
| Return (a : A)
| Throw (e : Error).
Arguments Return {A} a.
Arguments Throw {A} e.

Definition IO (A : Type) : Type := (list Event * Completion A)%type.

Definition ret {A : Type} (a : A) : IO A := ([], Return a).

Definition throw {A : Type} (e : Error) : IO A := ([], Throw e).

Definition perform (ev : Event) : IO unit := ([ev], Return tt).

Definition bind {A B : Type} (m : IO A) (k : A -> IO B) : IO B :=
  match m with
  | (t, Return a) => let (t', r) := k a in ((t ++ t')%list, r)
  | (t, Throw e) => (t, Throw e)
  end.

(** [try { m } catch (error) { handler error }]. *)
Definition try_catch {A : Type} (m : IO A) (handler : Error -> IO A) : IO A :=
  match m with
  | (t, Throw e) => let (t', r) := handler e in ((t ++ t')%list, r)
  | done => done
  end.

Declare Scope io_scope.
Delimit Scope io_scope with io.
Notation "x <- m ;; k" := (bind m (fun x => k))
  (at level 61, m at next level, right associativity) : io_scope.
Notation "m ;;; k" := (bind m (fun _ => k))
  (at level 61, right associativity) : io_scope.
Local Open Scope io_scope.

Definition trace {A : Type} (m : IO A) : list Event := fst m.
Definition completion {A : Type} (m : IO A) : Completion A := snd m.

(** [await Promise.all(promises)]: the results in the order of the
    promises; rejects when one of them does. *)
Fixpoint Promise_all {A : Type} (promises : list (IO A)) : IO (list A) :=
  match promises with
  | [] => ret []
  | p :: ps => x <- p ;; xs <- Promise_all ps ;; ret (x :: xs)
  end.

(** [readFileSync(adsPath, 'utf-8')] followed by [JSON.parse]. *)
Definition readAds (w : World) : IO (list Ad) :=
  perform ReadAdsFile ;;;
  match adsFile w with
  | Some ads => ret ads
  | None => throw (OtherError "ENOENT: no such file or directory")
  end.

(** [await fetch(url, { signal })] for the i-th routing call. *)
Definition fetchOsrm (w : World) (i : nat) (userLng userLat adLng adLat : Q)
  : IO Response :=
  perform (OsrmRequest userLng userLat adLng adLat) ;;;
  match osrm w i with
  | TimedOut => throw AbortError
  | NetworkFailure message => throw (OtherError message)
  | Answered response => ret response
  end.

(** [await osrmResponse.json()]. *)
Definition json (response : Response) : IO OsrmData :=
  match body response with
  | Some data => ret data
  | None => throw (OtherError "Unexpected token in JSON")
  end.

Definition nl : string := String (ascii_of_nat 10) "".

(** ** app.ts: GET /api/ads/recommendations *)

Module App.

(** One element of the [ads] array of the answer; [entry_duration] is
    [None] for [null]. *)
Record AdEntry : Type := mkAdEntry {
  entry_id : string;
  entry_businessName : string;
  entry_imageUrl : string;
  entry_websiteUrl : string;
  entry_latitude : Q;
  entry_longitude : Q;
  entry_distance : Q;
  entry_duration : option Q
}.

(** [res.status(400).json({ error, message })] and
    [res.json({ ads, total, message? })]. *)
Inductive Reply : Type :=
| BadRequest (error message : string)
| Recommendations (ads : list AdEntry) (total : nat) (message : option string).

Section Handler.

(** [parseFloat] is the built-in; [calculateDistance] is the haversine
    helper of utils/distance.ts. *)
Variable parseFloat : string -> JS.number.
Variable calculateDistance : Q -> Q -> Q -> Q -> Q.

Definition getAds (w : World) : IO (list Ad) :=
  try_catch (readAds w) (fun _ => ret []).

Definition compareFn (a b : Match) : Q :=
  if negb (Qeq_bool (priority (ad a)) (priority (ad b)))
  then priority (ad a) - priority (ad b)
  else distance a - distance b.

Definition withDistance (userLat userLng : Q) (ad : Ad) : Match :=
  let distance :=
    calculateDistance userLat userLng (latitude ad) (longitude ad) in
  mkMatch ad (JS.Math_round distance).

Definition inRadius (m : Match) : bool :=
  Qle_bool (distance m) (radius (ad m)).

Definition matchingAds (userLat userLng : Q) (ads : list Ad) : list Match :=
  JS.sort compareFn
    (filter inRadius
      (map (withDistance userLat userLng)
        (filter active ads))).

Definition entry (m : Match) (duration : option Q) : AdEntry :=
  {| entry_id := id (ad m);
     entry_businessName := businessName (ad m);
     entry_imageUrl := imageUrl (ad m);
     entry_websiteUrl := websiteUrl (ad m);
     entry_latitude := latitude (ad m);
     entry_longitude := longitude (ad m);
     entry_distance := distance m;
     entry_duration := duration |}.

Definition notJson (contentType : option string) : bool :=
  match contentType with
  | None => true
  | Some ct => JS.falsy contentType || negb (JS.includes ct "application/json")
  end.

Definition codeOk (osrmData : OsrmData) : bool :=
  match code osrmData with
  | Some c => String.eqb c "Ok"
  | None => false
  end.

(** [duration] after the [if (osrmData.code === 'Ok' && ...)]. *)
Definition routeDuration (osrmData : OsrmData) : option Q :=
  if codeOk osrmData then
    match routes osrmData with
    | Some (route0 :: _) => Some (JS.Math_round (duration route0))
    | _ => None
    end
  else None.

(** The callback of [matchingAds.map(async (ad) => ...)]. *)
Definition withDuration (w : World) (userLat userLng : Q)
  (m : Match) (index : nat) : IO AdEntry :=
  try_catch
    (osrmResponse <-
       fetchOsrm w index userLng userLat (longitude (ad m)) (latitude (ad m)) ;;
     if notJson (contentType osrmResponse) then ret (entry m None)
     else
       osrmData <- json osrmResponse ;;
       ret (entry m (routeDuration osrmData)))
    (fun _ => ret (entry m None)).

(** [await Promise.all(matchingAds.map(async (ad) => ...))]. *)
Definition adsWithDuration (w : World) (userLat userLng : Q)
  (matchingAds : list Match) : IO (list AdEntry) :=
  Promise_all (JS.mapi (withDuration w userLat userLng) matchingAds).

Definition asString (param : option string) : string :=
  match param with Some s => s | None => "" end.

Definition outOfRange (userLat userLng : JS.number) : bool :=
  JS.lt userLat (-90) || JS.gt userLat 90 ||
  JS.lt userLng (-180) || JS.gt userLng 180.

Definition recommendations (w : World) (latitude longitude : option string)
  : IO Reply :=
  if JS.falsy latitude || JS.falsy longitude then
    ret (BadRequest "Missing required parameters"
                    "Both latitude and longitude are required")
  else
    let userLat := parseFloat (asString latitude) in
    let userLng := parseFloat (asString longitude) in
    if JS.isNaN userLat || JS.isNaN userLng then
      ret (BadRequest "Invalid coordinates"
                      "Latitude and longitude must be valid numbers")
    else if outOfRange userLat userLng then
      ret (BadRequest "Invalid coordinates"
                      "Coordinates are out of valid range")
    else
      ads <- getAds w ;;
      let matchingAds :=
        matchingAds (JS.valueOf userLat) (JS.valueOf userLng) ads in
      if (0 <? List.length matchingAds)%nat then
        adsWithDuration <-
          adsWithDuration w (JS.valueOf userLat) (JS.valueOf userLng)
                          matchingAds ;;
        ret (Recommendations adsWithDuration (List.length adsWithDuration) None)
      else
        ret (Recommendations [] 0 (Some "No ads available in your area")).

(** GET /api/ads, the debugging route. *)
Definition allAds (w : World) : IO (list Ad) := getAds w.

End Handler.

End App.

(** ** chatbot/chatHandler.ts: POST /api/chat *)

Module Chat.

Inductive Role : Type := user | assistant.

(** [res.json({ response, timestamp, nearbyBusinesses, currentLocation })]
    and [res.status(500).json({ error, response, details })]. *)
Inductive Reply : Type :=
| ChatReply (response : string) (nearbyBusinesses : nat)
            (currentLocation : string)
| ServerError (error response details : string).

Section Handler.

(** [calculateDistance] is the haversine helper of utils/distance.ts;
    [Number_toString] is the built-in conversion [toFixed] falls back to
    for huge values; [preamble] and [rules] are the fixed text of the
    system prompt before and after the interpolated context. *)
Variable calculateDistance : Q -> Q -> Q -> Q -> Q.
Variable Number_toString : Q -> string.
Variables preamble rules : string.

Definition toFixed : nat -> Q -> string := JS.toFixed Number_toString.

Definition getAds (w : World) : IO (list Ad) := readAds w.

Definition withDistance (userLat userLng : Q) (ad : Ad) : Match :=
  let distance :=
    calculateDistance userLat userLng (latitude ad) (longitude ad) in
  mkMatch ad distance.

Definition byDistance (a b : Match) : Q := distance a - distance b.

Definition maxDistance_default : Q := 20000.

Definition getNearbyAds (w : World) (userLocation : option (Q * Q))
  (maxDistance : Q) : IO (list Match) :=
  match userLocation with
  | None => ret []
  | Some (userLat, userLng) =>
    ads <- getAds w ;;
    ret (JS.slice0 5
          (JS.sort byDistance
            (filter (fun m => Qle_bool (distance m) maxDistance)
              (map (withDistance userLat userLng)
                (filter active ads)))))
  end.

Definition formatAd (m : Match) (index : nat) : string :=
  let distanceKm := toFixed 1 (JS.div (distance m) 1000) in
  let distanceMi := toFixed 1 (JS.div (distance m) (JS.double 1609.34)) in
  JS.string_of_nat (index + 1) ++ ". " ++ businessName (ad m) ++ " - " ++
  description (ad m) ++ " (" ++ distanceMi ++ " mi / " ++ distanceKm ++
  " km away)" ++ nl ++ "   Website: " ++ websiteUrl (ad m).

Definition formatAdsContext (ads : list Match) : string :=
  if (List.length ads =? 0)%nat then "No nearby businesses available."
  else JS.join nl (JS.mapi formatAd ads).

Definition field (address : option Address) (f : Address -> option string)
  : option string :=
  match address with Some a => f a | None => None end.

Definition getCurrentLocationName (w : World) (userLocation : option (Q * Q))
  : IO string :=
  match userLocation with
  | None => ret "Unknown location"
  | Some (lat, lng) =>
    try_catch
      (perform (NominatimRequest lat lng) ;;;
       match nominatim w with
       | GeocodeFailure => throw (OtherError "fetch failed")
       | GeocodeStatus status =>
         throw (OtherError ("HTTP error! status: " ++ JS.string_of_nat status))
       | GeocodeAnswer address =>
         let city :=
           JS.or_else (field address city)
             (JS.or_else (field address town)
               (JS.or_else (field address suburb)
                 (JS.or_else (field address county)
                   (JS.or_else (field address state) (Some "your area"))))) in
         let state := JS.or_else (field address state) (Some "") in
         ret (if JS.falsy state then App.asString city
              else App.asString city ++ ", " ++ App.asString state)
       end)
      (fun _ => ret "your area")
  end.

Definition coordinatesLine (userLocation : option (Q * Q)) : string :=
  match userLocation with
  | Some (lat, lng) => "Coordinates: " ++ toFixed 4 lat ++ ", " ++ toFixed 4 lng
  | None => ""
  end.

Definition systemPrompt (currentLocation : string)
  (userLocation : option (Q * Q)) (adsContext : string) : string :=
  preamble ++ "PASSENGER'S CURRENT LOCATION: " ++ currentLocation ++ nl ++
  coordinatesLine userLocation ++ nl ++ nl ++
  "OUR PARTNERED BUSINESSES (from closest to farthest):" ++ nl ++
  adsContext ++ nl ++ nl ++ rules.

Fixpoint historyLines (conversationHistory : list (Role * string)) : string :=
  match conversationHistory with
  | [] => ""
  | (role, content) :: rest =>
    (match role with user => "User" | assistant => "Assistant" end) ++
    ": " ++ content ++ nl ++ historyLines rest
  end.

Definition handleChatMessage (w : World) (message : string)
  (userLocation : option (Q * Q)) (conversationHistory : list (Role * string))
  : IO Reply :=
  try_catch
    (if JS.falsy (GEMINI_API_KEY w) then
       throw (OtherError "GEMINI_API_KEY is not configured")
     else
       currentLocation <- getCurrentLocationName w userLocation ;;
       nearbyAds <- getNearbyAds w userLocation maxDistance_default ;;
       let adsContext := formatAdsContext nearbyAds in
       let fullPrompt :=
         systemPrompt currentLocation userLocation adsContext ++
         nl ++ nl ++ "Conversation history:" ++ nl ++
         historyLines conversationHistory ++
         nl ++ "User's new message: " ++ message in
       perform (GenerateContent fullPrompt) ;;;
       match gemini w fullPrompt with
       | None => throw (OtherError "generateContent failed")
       | Some responseText =>
         ret (ChatReply responseText (List.length nearbyAds) currentLocation)
       end)
    (fun error =>
       ret (ServerError "Failed to process chat message"
              "I'm sorry, I'm having trouble right now. Please try again in a moment."
              (error_message error))).

End Handler.

End Chat.

(** ** nextjs-pwa/app/page.tsx: the page that shows the recommendations *)

Module Page.

(** What [fetch(...).then(res => res.json())] delivers: the parsed reply of
    the backend, or a rejection (network failure, body that is not JSON). *)
Inductive Fetched : Type :=
| Rejected
| Json (reply : App.Reply).

(** The state of [useAdRecommendations]. *)
Record AdsState : Type := mkAdsState {
  ads : list App.AdEntry;
  isLoading : bool;
  error : option string
}.

(** The state once the effect of [useAdRecommendations] for [location] has
    settled, from the state before it. *)
Definition useAdRecommendations (before : AdsState)
  (location : option (Q * Q)) (fetched : Fetched) : AdsState :=
  match location with
  | None => before
  | Some _ =>
    match fetched with
    | Json (App.Recommendations ads _ _) =>
      if (0 <? List.length ads)%nat then mkAdsState ads false None
      else mkAdsState [] false None
    | Json (App.BadRequest _ _) => mkAdsState [] false None
    | Rejected => mkAdsState [] false (Some "Failed to load recommendations")
    end
  end.

(** [ads.length > 0 ? ads[currentAdIndex] : null]. *)
Definition recommendedAd (ads : list App.AdEntry) (currentAdIndex : nat)
  : option App.AdEntry :=
  if (0 <? List.length ads)%nat then nth_error ads currentAdIndex else None.

Definition handleNextAd (ads : list App.AdEntry) (currentAdIndex : nat) : nat :=
  if (0 <? List.length ads)%nat && (currentAdIndex <? List.length ads - 1)%nat
  then (currentAdIndex + 1)%nat else currentAdIndex.

Definition handlePrevAd (ads : list App.AdEntry) (currentAdIndex : nat) : nat :=
  if (0 <? List.length ads)%nat && (0 <? currentAdIndex)%nat
  then (currentAdIndex - 1)%nat else currentAdIndex.

(** The carousel of [Page]: the list [ads] of the hook, the state
    [currentAdIndex], and whether the effect [useEffect(() =>
    setCurrentAdIndex(0), [ads])] has yet to run for the list on display.
    The two are separate states: a new list is rendered with the index of
    the render before, and the effect resets the index after that render. *)
Record Carousel : Type := mkCarousel {
  carouselAds : list App.AdEntry;
  currentAdIndex : nat;
  resetPending : bool
}.

(** What happens to the carousel: a click on an arrow, a new list from the
    hook, or the run of the effect on [ads]. *)
Inductive Event : Type :=
| NextAd
| PrevAd
| AdsLoaded (ads : list App.AdEntry)
| ResetEffect.

Definition step (c : Carousel) (event : Event) : Carousel :=
  match event with
  | NextAd =>
    mkCarousel (carouselAds c)
      (handleNextAd (carouselAds c) (currentAdIndex c)) (resetPending c)
  | PrevAd =>
    mkCarousel (carouselAds c)
      (handlePrevAd (carouselAds c) (currentAdIndex c)) (resetPending c)
  | AdsLoaded ads' => mkCarousel ads' (currentAdIndex c) true
  | ResetEffect =>
    if resetPending c then mkCarousel (carouselAds c) O false else c
  end.

(** The first render: no ads, index 0, and the effect still to run. *)
Definition mounted : Carousel := mkCarousel [] O true.

Definition run (events : list Event) : Carousel :=
  fold_left step events mounted.

(** The ad on display in a render. *)
Definition displayed (c : Carousel) : option App.AdEntry :=
  recommendedAd (carouselAds c) (currentAdIndex c).

Section Display.

(** Number::toString for values from [10^21] on. *)
Variable Number_toString : Q -> string.

Definition formatDistance (distanceInMeters : Q) : string :=
  if negb (Qle_bool 1000 distanceInMeters) then
    JS.toStringInteger Number_toString (JS.Math_round distanceInMeters) ++ " m"
  else if negb (Qle_bool 1600 distanceInMeters) then
    JS.toFixed Number_toString 1 (JS.div distanceInMeters 1000) ++ " km"
  else
    let miles := JS.div distanceInMeters (JS.double 1609.34) in
    JS.toFixed Number_toString 1 miles ++ " mi".

Definition formatDuration (durationInSeconds : Q) : string :=
  let minutes := JS.Math_round (JS.div durationInSeconds 60) in
  if negb (Qle_bool 1 minutes) then "< 1 min"
  else if negb (Qle_bool 60 minutes) then
    JS.toStringInteger Number_toString minutes ++ " min"
  else
    let hrs := JS.Math_floor (JS.div minutes 60) in
    let mins := JS.rem minutes 60 in
    if negb (Qle_bool mins 0) then
      JS.toStringInteger Number_toString hrs ++ "h " ++
      JS.toStringInteger Number_toString mins ++ "m"
    else JS.toStringInteger Number_toString hrs ++ "h".

Definition calculateEstimatedTime (distanceInMeters : Q) : string :=
  let miles := JS.div distanceInMeters (JS.double 1609.34) in
  let hours := JS.div miles 40 in
  let minutes := JS.Math_round (JS.mul hours 60) in
  if negb (Qle_bool 1 minutes) then "< 1 min"
  else if negb (Qle_bool 60 minutes) then
    JS.toStringInteger Number_toString minutes ++ " min"
  else
    let hrs := JS.Math_floor (JS.div minutes 60) in
    let mins := JS.rem minutes 60 in
    if negb (Qle_bool mins 0) then
      JS.toStringInteger Number_toString hrs ++ "h " ++
      JS.toStringInteger Number_toString mins ++ "m"
    else JS.toStringInteger Number_toString hrs ++ "h".

Definition getDisplayTime (ad : App.AdEntry) : string :=
  match App.entry_duration ad with
  | Some duration => formatDuration duration
  | None => calculateEstimatedTime (App.entry_distance ad)
  end.

End Display.

End Page.

(** ** nextjs-pwa/app/components/Chatbot.tsx: the chat window *)

Module Chatbot.

(** A message of the window; its id and timestamp are clock readings and
    are left out. *)
Record Message : Type := mkMessage {
  role : Chat.Role;
  content : string
}.

Record State : Type := mkState {
  isOpen : bool;
  messages : list Message;
  inputMessage : string;
  isLoading : bool
}.

(** What the POST to /api/chat delivers: the parsed reply, or a rejection. *)
Inductive Fetched : Type :=
| Rejected
| Json (reply : Chat.Reply).

(** [data.response]. *)
Definition response (reply : Chat.Reply) : string :=
  match reply with
  | Chat.ChatReply text _ _ => text
  | Chat.ServerError _ text _ => text
  end.

Section Window.

(** The white space of [String.prototype.trim]. *)
Variable isWhiteSpace : ascii -> bool.

Fixpoint blank (s : string) : bool :=
  match s with
  | EmptyString => true
  | String c s' => isWhiteSpace c && blank s'
  end.

(** The body of the request: message, location and history. *)
Definition requestBody (state : State) (userLocation : option (Q * Q))
  : string * option (Q * Q) * list (Chat.Role * string) :=
  (inputMessage state, userLocation,
   map (fun m => (role m, content m)) (messages state)).

(** The state after [handleSendMessage] has run to its end. *)
Definition handleSendMessage (state : State) (fetched : Fetched) : State :=
  if blank (inputMessage state) || isLoading state then state
  else
    let userMessage := mkMessage Chat.user (inputMessage state) in
    let assistantMessage :=
      match fetched with
      | Json data => mkMessage Chat.assistant (response data)
      | Rejected =>
        mkMessage Chat.assistant
          "I'm sorry, I'm having trouble connecting right now. Please try again."
      end in
    mkState (isOpen state)
            ((messages state ++ [userMessage]) ++ [assistantMessage])
            "" false.

(** *** [renderMessageContent]

    The regular expression [/(https?:\/\/[^\s]+)/g]: a scheme, then as many
    characters that are not white space as there are, at least one. *)

(** The longest run of characters that are not white space at the head of
    [s], and what follows it. *)
Fixpoint nonSpaceRun (s : string) : string * string :=
  match s with
  | EmptyString => ("", "")
  | String c s' =>
    if isWhiteSpace c then ("", s)
    else let (run, rest) := nonSpaceRun s' in (String c run, rest)
  end.

Fixpoint drop (n : nat) (s : string) : string :=
  match n, s with
  | O, _ => s
  | S n', String _ s' => drop n' s'
  | S _, EmptyString => ""
  end.

(** A match of [scheme[^\s]+] at the head of [s]: the text matched and the
    rest of [s]. *)
Definition matchScheme (scheme s : string) : option (string * string) :=
  if String.prefix scheme s then
    match nonSpaceRun (drop (String.length scheme) s) with
    | (EmptyString, _) => None
    | (run, rest) => Some (scheme ++ run, rest)
    end
  else None.

(** A match of the expression at the head of [s]; the optional [s] of the
    scheme is tried first. *)
Definition matchUrl (s : string) : option (string * string) :=
  match matchScheme "https://" s with
  | Some found => Some found
  | None => matchScheme "http://" s
  end.

(** [part.match(urlRegex)] as a condition: some match starts in [part]. *)
Fixpoint containsUrl (part : string) : bool :=
  match matchUrl part with
  | Some _ => true
  | None =>
    match part with
    | EmptyString => false
    | String _ part' => containsUrl part'
    end
  end.

(** [content.split(urlRegex)]: the text before each match, the match (the
    capture of the group), and at last the text after the last match.
    [piece] is the text read since the last match; [fuel] bounds the number
    of steps, one per character at most. *)
Fixpoint splitFrom (fuel : nat) (s piece : string) : list string :=
  match fuel with
  | O => [piece ++ s]
  | S fuel' =>
    match matchUrl s with
    | Some (url, rest) => piece :: url :: splitFrom fuel' rest ""
    | None =>
      match s with
      | EmptyString => [piece]
      | String c s' => splitFrom fuel' s' (piece ++ String c "")
      end
    end
  end.

Definition split (content : string) : list string :=
  splitFrom (S (String.length content)) content "".

(** What a part is rendered as: a link to the part, or plain text. *)
Inductive Rendered : Type :=
| Link (href : string)
| Span (text : string).

Definition renderMessageContent (content : string) : list Rendered :=
  map (fun part => if containsUrl part then Link part else Span part)
      (split content).

End Window.

End Chatbot.

(** ** Stand-ins used to run the handlers on concrete requests *)

(** On one meridian the great-circle distance is the arc between the two
    latitudes; with the mean radius 6371000 m one degree is 111195 m to the
    nearest meter.  The examples place user and businesses on one meridian. *)
Definition meridianDistance (userLat userLng adLat adLng : Q) : Q :=
  111195 * Qabs (adLat - userLat).

Definition digitValue (c : ascii) : option Z :=
  let n := Z.of_nat (nat_of_ascii c) in
  if ((48 <=? n) && (n <=? 57))%Z then Some (n - 48)%Z else None.

(** The digits at the head of [s], accumulated onto [acc], with their
    count and the rest of the string. *)
Fixpoint digitRun (s : string) (acc : Z) (count : nat) : Z * nat * string :=
  match s with
  | EmptyString => (acc, count, s)
  | String c s' =>
    match digitValue c with
    | Some d => digitRun s' (10 * acc + d)%Z (S count)
    | None => (acc, count, s)
    end
  end.

(** [parseFloat] on plain decimal notation: an optional minus sign, digits,
    and an optional fraction; [NaN] when no digit starts the number. *)
Definition parseDecimal (s : string) : JS.number :=
  let (negative, s) :=
    match s with
    | String "-" s' => (true, s')
    | _ => (false, s)
    end in
  let '(whole, count, rest) := digitRun s 0%Z O in
  match count with
  | O => JS.NaN
  | S _ =>
    let magnitude :=
      match rest with
      | String "." fraction =>
        let '(digits, places, _) := digitRun fraction 0%Z O in
        inject_Z whole + inject_Z digits / inject_Z (10 ^ Z.of_nat places)
      | _ => inject_Z whole
      end in
    JS.Finite (if negative then - magnitude else magnitude)
  end.

(** A business [meters] north of the point (0, 0), on its meridian. *)
Definition adAt (id : string) (meters radius priority : Q) (active : bool)
  : Ad :=
  {| id := id; businessName := id; description := "coffee";
     imageUrl := "/img.png"; websiteUrl := "https://example.com";
     latitude := meters / 111195; longitude := 0;
     radius := radius; active := active; priority := priority |}.

(** A business 5000.4 m away whose service radius is 5000 m. *)
Definition edge : Ad := adAt "edge" 5000.4 5000 1 true.

(** Two businesses of equal priority, the nearer one later in the catalog,
    whose distances round to the same meter. *)
Definition cafeA : Ad := adAt "a" 1234.4 5000 1 true.
Definition cafeB : Ad := adAt "b" 1234.2 5000 1 true.

(** A world whose routing service never answers in time. *)
Definition quietWorld (adsFile : option (list Ad)) : World :=
  {| adsFile := adsFile;
     osrm := fun _ => TimedOut;
     nominatim := GeocodeFailure;
     GEMINI_API_KEY := Some "key";
     gemini := fun _ => Some "Welcome aboard!" |}.

(** An inactive record of the catalog. *)
Definition closed : Ad := adAt "closed" 100 5000 1 false.

(** A routing answer with status 500 whose body is a complete route. *)
Definition badGateway : Response :=
  {| status := 500;
     contentType := Some "application/json; charset=UTF-8";
     body := Some {| code := Some "Ok";
                     routes := Some [ {| duration := 312.6 |} ] |} |}.

Definition badGatewayWorld (adsFile : option (list Ad)) : World :=
  {| adsFile := adsFile;
     osrm := fun _ => Answered badGateway;
     nominatim := GeocodeFailure;
     GEMINI_API_KEY := Some "key";
     gemini := fun _ => Some "Welcome aboard!" |}.

(** A world whose first routing call times out and whose later calls
    return a route of 312.6 seconds. *)
Definition route313 : Response :=
  {| status := 200;
     contentType := Some "application/json; charset=UTF-8";
     body := Some {| code := Some "Ok";
                     routes := Some [ {| duration := 312.6 |} ] |} |}.

Definition mixedWorld (adsFile : option (list Ad)) : World :=
  {| adsFile := adsFile;
     osrm := fun i => match i with O => TimedOut | S _ => Answered route313 end;
     nominatim := GeocodeFailure;
     GEMINI_API_KEY := Some "key";
     gemini := fun _ => Some "Welcome aboard!" |}.

(** ** Vocabulary of the properties *)

Section Order.
Context {A : Type} (compareFn : A -> A -> Q).

(** [x] may stand before [y]. *)
Definition inOrder (x y : A) : Prop := compareFn x y <= 0.

(** [x] and [y] compare as equal. *)
Definition tie (x y : A) : bool :=
  Qle_bool (compareFn x y) 0 && Qle_bool (compareFn y x) 0.

End Order.

(** [a] may stand before [b]: lower priority number first, then the
    smaller distance. *)
Definition ranksBefore (a b : Match) : Prop :=
  priority (ad a) < priority (ad b) \/
  (priority (ad a) == priority (ad b) /\ distance a <= distance b).

(** Equal priority and equal distance. *)
Definition sameKey (a b : Match) : bool :=
  Qeq_bool (priority (ad a)) (priority (ad b)) &&
  Qeq_bool (distance a) (distance b).

(** The duration the enrichment callback derives from the outcome of its
    routing call. *)
Definition outcomeDuration (o : FetchOutcome) : option Q :=
  match o with
  | Answered response =>
    if App.notJson (contentType response) then None
    else match body response with
         | Some osrmData => App.routeDuration osrmData
         | None => None
         end
  | _ => None
  end.

(** The routing request issued for a candidate. *)
Definition request (userLat userLng : Q) (m : Match) : Event :=
  OsrmRequest userLng userLat (longitude (ad m)) (latitude (ad m)).

(** The candidates of [getNearbyAds] before [slice(0, 5)]. *)
Definition inReach (calculateDistance : Q -> Q -> Q -> Q -> Q)
  (userLat userLng maxDistance : Q) (ads : list Ad) : list Match :=
  JS.sort Chat.byDistance
    (filter (fun m => Qle_bool (distance m) maxDistance)
       (map (Chat.withDistance calculateDistance userLat userLng)
          (filter active ads))).

(** The routing call answered with a usable route of duration [d]: a JSON
    content type, a body that parses, the code 'Ok' and a first route. *)
Definition usableRoute (o : FetchOutcome) (d : Q) : Prop :=
  exists response ct data route rest,
    o = Answered response /\
    contentType response = Some ct /\
    JS.includes ct "application/json" = true /\
    body response = Some data /\
    code data = Some "Ok" /\
    routes data = Some (route :: rest) /\
    d = duration route.

(** Both coordinates are finite and within [-90, 90] and [-180, 180]. *)
Definition validCoordinates (userLat userLng : JS.number) : bool :=
  match userLat, userLng with
  | JS.Finite x, JS.Finite y =>
    Qle_bool (-90) x && Qle_bool x 90 && Qle_bool (-180) y && Qle_bool y 180
  | _, _ => false
  end.

(** The record [a] with another radius and priority, [g a]. *)
Definition reprice (g : Ad -> Q * Q) (a : Ad) : Ad :=
  {| id := id a; businessName := businessName a;
     description := description a; imageUrl := imageUrl a;
     websiteUrl := websiteUrl a; latitude := latitude a;
     longitude := longitude a; radius := fst (g a); active := active a;
     priority := snd (g a) |}.

Definition repriceMatch (g : Ad -> Q * Q) (m : Match) : Match :=
  {| ad := reprice g (ad m); distance := distance m |}.

(** A number rendered with exactly one decimal place: an optional minus
    sign, at least one digit, the point, one digit. *)
Definition isDigit (c : ascii) : bool :=
  ((48 <=? nat_of_ascii c) && (nat_of_ascii c <=? 57))%nat.

Fixpoint allDigits (s : string) : bool :=
  match s with
  | EmptyString => true
  | String c s' => isDigit c && allDigits s'
  end.

Definition oneDecimal (s : string) : Prop :=
  exists sign whole digit,
    s = sign ++ whole ++ "." ++ String digit "" /\
    (sign = "" \/ sign = "-") /\
    whole <> "" /\ allDigits whole = true /\ isDigit digit = true.

(** The lines of a text: the runs of characters between its newlines. *)
Fixpoint linesOf (s : string) : list string :=
  match s with
  | EmptyString => [""]
  | String c s' =>
    if Ascii.eqb c (ascii_of_nat 10) then "" :: linesOf s'
    else
      match linesOf s' with
      | line :: lines => String c line :: lines
      | [] => [String c ""]
      end
  end.

(** A text without a newline. *)
Fixpoint singleLine (s : string) : bool :=
  match s with
  | EmptyString => true
  | String c s' => negb (Ascii.eqb c (ascii_of_nat 10)) && singleLine s'
  end.

(** The carousel shows an ad of a non-empty list, or the list is empty
    and the index is 0. *)
Definition inList (state : list App.AdEntry * nat) : Prop :=
  (fst state = [] /\ snd state = O) \/
  (snd state < List.length (fst state))%nat.

(** No character of [s] is white space. *)
Fixpoint noSpace (isWhiteSpace : ascii -> bool) (s : string) : bool :=
  match s with
  | EmptyString => true
  | String c s' => negb (isWhiteSpace c) && noSpace isWhiteSpace s'
  end.

(** [u] is a scheme followed by at least one character, none of them white
    space. *)
Definition isUrl (isWhiteSpace : ascii -> bool) (u : string) : Prop :=
  exists scheme run,
    (scheme = "http://" \/ scheme = "https://") /\
    u = scheme ++ run /\ run <> "" /\ noSpace isWhiteSpace run = true.



(** A duration of [minutes] whole minutes as the page words it. *)
Definition digits (z : Z) : string := JS.string_of_N (Z.to_N z).

Definition durationText (minutes : Z) : string :=
  if (minutes <? 1)%Z then "< 1 min"
  else if (minutes <? 60)%Z then digits minutes ++ " min"
  else if (0 <? minutes mod 60)%Z then
    digits (minutes / 60) ++ "h " ++ digits (minutes mod 60) ++ "m"
  else digits (minutes / 60) ++ "h".

(** [a] is at most as far as [b]. *)
Definition nearerOrEqual (a b : Match) : Prop := distance a <= distance b.

(** * Properties *)

(** ** [Math.round] *)

Ltac push_inject :=
  repeat match goal with
  | H : context [inject_Z (_ + _)] |- _ => rewrite inject_Z_plus in H
  | |- context [inject_Z (_ + _)] => rewrite inject_Z_plus
  end;
  change (inject_Z 1) with 1 in *.

Lemma Math_round_bounds (x : Q) :
  x - 0.5 < JS.Math_round x /\ JS.Math_round x <= x + 0.5.
Proof.
  unfold JS.Math_round. split.
  - pose proof (Qlt_floor (x + 0.5)) as H. push_inject. lra.
  - apply Qfloor_le.
Qed.

Lemma Qfloor_lt_succ (x : Q) (n : Z) :
  (Qfloor x < n + 1)%Z <-> x < inject_Z n + 1.
Proof.
  split; intros H.
  - pose proof (Qlt_floor x) as Hlt.
    assert (inject_Z (Qfloor x + 1) <= inject_Z (n + 1)) as Hle
      by (rewrite <- Zle_Qle; lia).
    push_inject. lra.
  - rewrite Zlt_Qlt. eapply Qle_lt_trans; [apply Qfloor_le|].
    push_inject. lra.
Qed.

Lemma Math_round_le_integer (x : Q) (n : Z) :
  JS.Math_round x <= inject_Z n <-> x < inject_Z n + 0.5.
Proof.
  unfold JS.Math_round. rewrite <- Zle_Qle.
  rewrite <- Z.lt_succ_r, <- Z.add_1_r, Qfloor_lt_succ. split; lra.
Qed.

Lemma Math_round_integer (n : Z) : JS.Math_round (inject_Z n) = inject_Z n.
Proof.
  unfold JS.Math_round. f_equal.
  assert (Qfloor (inject_Z n + 0.5) < n + 1 /\ n <= Qfloor (inject_Z n + 0.5))%Z
    as [? ?]; [|lia].
  split.
  - apply Qfloor_lt_succ. lra.
  - rewrite <- (Qfloor_Z n) at 1. apply Qfloor_resp_le. lra.
Qed.

(** ** [Array.prototype.sort] with a consistent comparator *)

Section SortFacts.
Context {A : Type} (compareFn : A -> A -> Q).

Abbreviation ordered := (inOrder compareFn).
Abbreviation tied := (tie compareFn).

Lemma after_true (x y : A) : JS.after compareFn x y = true <-> ~ ordered x y.
Proof.
  unfold JS.after, inOrder. rewrite negb_true_iff, <- not_true_iff_false.
  now rewrite Qle_bool_iff.
Qed.

Lemma after_false (x y : A) : JS.after compareFn x y = false <-> ordered x y.
Proof.
  unfold JS.after, inOrder. rewrite negb_false_iff. apply Qle_bool_iff.
Qed.

Lemma tie_spec (x y : A) : tied x y = true <-> ordered x y /\ ordered y x.
Proof. unfold tie, inOrder. now rewrite andb_true_iff, !Qle_bool_iff. Qed.

Lemma insert_Permutation (x : A) (l : list A) :
  Permutation (x :: l) (JS.insert compareFn x l).
Proof.
  induction l as [|y l IH]; simpl; [reflexivity|].
  destruct (JS.after compareFn x y); [|reflexivity].
  rewrite perm_swap. now constructor.
Qed.

Lemma sort_Permutation (l : list A) : Permutation l (JS.sort compareFn l).
Proof.
  induction l as [|x l IH]; simpl; [constructor|].
  rewrite <- insert_Permutation. now constructor.
Qed.

Lemma sort_In (x : A) (l : list A) : In x (JS.sort compareFn l) <-> In x l.
Proof.
  split; apply Permutation_in;
    [symmetry|]; apply sort_Permutation.
Qed.

Lemma sort_length (l : list A) :
  List.length (JS.sort compareFn l) = List.length l.
Proof. symmetry. apply Permutation_length, sort_Permutation. Qed.

(** A consistent comparator: any two elements are in order one way or
    the other, and being in order is transitive. *)
Hypothesis inOrder_total : forall x y, ordered x y \/ ordered y x.
Hypothesis inOrder_trans :
  forall x y z, ordered x y -> ordered y z -> ordered x z.

Lemma insert_sorted (x : A) (l : list A) :
  StronglySorted ordered l -> StronglySorted ordered (JS.insert compareFn x l).
Proof.
  induction 1 as [|y l Hl IH Hy]; simpl.
  - repeat constructor.
  - destruct (JS.after compareFn x y) eqn:E.
    + constructor; [exact IH|].
      apply after_true in E.
      eapply Permutation_Forall; [apply insert_Permutation|].
      constructor; [|exact Hy].
      destruct (inOrder_total x y); tauto.
    + apply after_false in E.
      constructor; [now constructor|].
      constructor; [exact E|].
      eapply Forall_impl; [|exact Hy]. intros z Hz.
      now apply inOrder_trans with y.
Qed.

Lemma sort_sorted (l : list A) : StronglySorted ordered (JS.sort compareFn l).
Proof.
  induction l as [|x l IH]; simpl; [constructor|]. now apply insert_sorted.
Qed.

Lemma insert_stable (k x : A) (l : list A) :
  filter (tied k) (JS.insert compareFn x l) = filter (tied k) (x :: l).
Proof.
  induction l as [|y l IH]; [reflexivity|].
  cbn [JS.insert]. destruct (JS.after compareFn x y) eqn:E; [|reflexivity].
  cbn [filter] in *. rewrite IH.
  destruct (tied k x) eqn:Ex, (tied k y) eqn:Ey; try reflexivity.
  apply after_true in E. apply tie_spec in Ex, Ey.
  exfalso. apply E. apply inOrder_trans with k; tauto.
Qed.

Lemma sort_stable (k : A) (l : list A) :
  filter (tied k) (JS.sort compareFn l) = filter (tied k) l.
Proof.
  induction l as [|x l IH]; [reflexivity|].
  cbn [JS.sort]. rewrite insert_stable. cbn [filter]. now rewrite IH.
Qed.

(** The stable sorted arrangement is unique: whatever stable algorithm the
    engine runs, it returns [JS.sort compareFn l]. *)
Lemma stable_sorted_unique (s s' : list A) :
  Permutation s s' ->
  StronglySorted ordered s -> StronglySorted ordered s' ->
  (forall k, filter (tied k) s = filter (tied k) s') ->
  s = s'.
Proof.
  revert s'. induction s as [|a s IH]; intros s' Hp Hs Hs' Hf.
  - apply Permutation_nil in Hp. now subst.
  - destruct s' as [|b s']; [now apply Permutation_sym, Permutation_nil in Hp|].
    inversion Hs as [|? ? Hs1 Ha]; subst.
    inversion Hs' as [|? ? Hs1' Hb]; subst.
    assert (ordered a a) as Haa by (destruct (inOrder_total a a); assumption).
    assert (ordered b b) as Hbb by (destruct (inOrder_total b b); assumption).
    assert (ordered a b) as Hab.
    { assert (In b (a :: s)) as [->|Hin]
        by (eapply Permutation_in; [symmetry; exact Hp|now left]);
        [assumption|].
      rewrite Forall_forall in Ha. now apply Ha. }
    assert (ordered b a) as Hba.
    { assert (In a (b :: s')) as [->|Hin]
        by (eapply Permutation_in; [exact Hp|now left]);
        [assumption|].
      rewrite Forall_forall in Hb. now apply Hb. }
    assert (a = b) as <-.
    { assert (tied a a = true) as Taa by (apply tie_spec; tauto).
      assert (tied a b = true) as Tab by (apply tie_spec; tauto).
      pose proof (Hf a) as H. cbn [filter] in H. rewrite Taa, Tab in H.
      congruence. }
    f_equal. apply IH; try assumption.
    + now apply Permutation_cons_inv in Hp.
    + intros k. specialize (Hf k). cbn [filter] in Hf.
      destruct (tied k a); congruence.
Qed.

End SortFacts.

(** ** Ranking: the comparator of [matchingAds] *)

Lemma compareFn_ranksBefore (a b : Match) :
  inOrder App.compareFn a b <-> ranksBefore a b.
Proof.
  unfold inOrder, App.compareFn, ranksBefore.
  destruct (Qeq_bool (priority (ad a)) (priority (ad b))) eqn:E; simpl.
  - apply Qeq_bool_iff in E. split.
    + intros H. right. split; [exact E|lra].
    + intros [H|[_ H]]; lra.
  - apply Qeq_bool_neq in E. split.
    + intros H. left.
      destruct (Qlt_le_dec (priority (ad a)) (priority (ad b))) as [?|Hle];
        [assumption|].
      exfalso. apply E. lra.
    + intros [H|[H _]]; [lra|contradiction].
Qed.

Lemma ranksBefore_total (a b : Match) : ranksBefore a b \/ ranksBefore b a.
Proof.
  unfold ranksBefore.
  destruct (Q_dec (priority (ad a)) (priority (ad b))) as [[H|H]|H].
  - left. now left.
  - right. now left.
  - destruct (Qlt_le_dec (distance b) (distance a)).
    + right. right. split; [now symmetry|lra].
    + left. now right.
Qed.

Lemma ranksBefore_trans (a b c : Match) :
  ranksBefore a b -> ranksBefore b c -> ranksBefore a c.
Proof.
  unfold ranksBefore. intros [H1|[H1 H1']] [H2|[H2 H2']].
  - left. lra.
  - left. lra.
  - left. lra.
  - right. split; lra.
Qed.

Lemma compareFn_total (a b : Match) :
  inOrder App.compareFn a b \/ inOrder App.compareFn b a.
Proof. rewrite !compareFn_ranksBefore. apply ranksBefore_total. Qed.

Lemma compareFn_trans (a b c : Match) :
  inOrder App.compareFn a b -> inOrder App.compareFn b c ->
  inOrder App.compareFn a c.
Proof. rewrite !compareFn_ranksBefore. apply ranksBefore_trans. Qed.

Lemma tie_sameKey (a b : Match) : tie App.compareFn a b = sameKey a b.
Proof.
  apply eq_true_iff_eq. rewrite tie_spec, !compareFn_ranksBefore.
  unfold sameKey, ranksBefore. rewrite andb_true_iff, !Qeq_bool_iff.
  split.
  - intros [[H1|[H1 H1']] [H2|[H2 H2']]]; split; lra.
  - intros [H1 H2]. split; right; split; lra.
Qed.

Lemma filter_tie_sameKey (k : Match) (l : list Match) :
  filter (tie App.compareFn k) l = filter (sameKey k) l.
Proof. apply filter_ext. intros a. apply tie_sameKey. Qed.

Lemma StronglySorted_iff {A : Type} (R R' : A -> A -> Prop) (l : list A) :
  (forall x y, R x y <-> R' x y) -> StronglySorted R l -> StronglySorted R' l.
Proof.
  intros HR. induction 1 as [|x l Hl IH Hx]; constructor; [exact IH|].
  eapply Forall_impl; [|exact Hx]. intros y. apply HR.
Qed.

Lemma rank_sorted (matches : list Match) :
  StronglySorted ranksBefore (JS.sort App.compareFn matches).
Proof.
  eapply StronglySorted_iff; [apply compareFn_ranksBefore|].
  apply sort_sorted; [apply compareFn_total|apply compareFn_trans].
Qed.

Lemma rank_stable (matches : list Match) (k : Match) :
  filter (sameKey k) (JS.sort App.compareFn matches)
  = filter (sameKey k) matches.
Proof.
  rewrite <- !filter_tie_sameKey. apply sort_stable, compareFn_trans.
Qed.

Lemma rank_unique (matches ranked : list Match) :
  Permutation matches ranked ->
  StronglySorted ranksBefore ranked ->
  (forall k, filter (sameKey k) ranked = filter (sameKey k) matches) ->
  ranked = JS.sort App.compareFn matches.
Proof.
  intros Hp Hr Hk.
  apply stable_sorted_unique with (compareFn := App.compareFn).
  - apply compareFn_total.
  - rewrite <- Hp. apply sort_Permutation.
  - eapply StronglySorted_iff; [|exact Hr].
    intros x y. symmetry. apply compareFn_ranksBefore.
  - eapply StronglySorted_iff; [|apply rank_sorted].
    intros x y. symmetry. apply compareFn_ranksBefore.
  - intros k. rewrite !filter_tie_sameKey, Hk. symmetry. apply rank_stable.
Qed.

(** C2.  Ranking, the [.sort] of matchingAds applied to any sequence of
    matches, returns a rearrangement of its input that is ordered by
    ascending priority and then ascending distance, keeps records of equal
    priority and equal distance in their input (catalog) order, and is the
    only arrangement with these three properties: the same input always
    yields the same output order. *)
Theorem rank_sorted_stable_deterministic (matches : list Match) :
  Permutation matches (JS.sort App.compareFn matches) /\
  StronglySorted ranksBefore (JS.sort App.compareFn matches) /\
  (forall k, filter (sameKey k) (JS.sort App.compareFn matches)
             = filter (sameKey k) matches) /\
  (forall ranked,
      Permutation matches ranked ->
      StronglySorted ranksBefore ranked ->
      (forall k, filter (sameKey k) ranked = filter (sameKey k) matches) ->
      ranked = JS.sort App.compareFn matches).
Proof.
  split; [apply sort_Permutation|].
  split; [apply rank_sorted|].
  split; [intros k; apply rank_stable|].
  intros ranked. apply rank_unique.
Qed.

(** ** The match set of the recommendation route *)

Section MatchSet.
Variable calculateDistance : Q -> Q -> Q -> Q -> Q.
Variables userLat userLng : Q.

Abbreviation raw ad :=
  (calculateDistance userLat userLng (latitude ad) (longitude ad)).
Abbreviation matchingAds := (App.matchingAds calculateDistance userLat userLng).
Abbreviation withDistance :=
  (App.withDistance calculateDistance userLat userLng).

Lemma matchingAds_In (ads : list Ad) (m : Match) :
  In m (matchingAds ads) <->
  exists ad, In ad ads /\ active ad = true /\
             JS.Math_round (raw ad) <= radius ad /\ m = withDistance ad.
Proof.
  unfold App.matchingAds. rewrite sort_In, filter_In, in_map_iff.
  unfold App.inRadius. rewrite Qle_bool_iff. split.
  - intros [(ad & <- & Hin) Hle]. apply filter_In in Hin as [Hin Hact].
    exists ad. auto.
  - intros (ad & Hin & Hact & Hle & ->). split; [|exact Hle].
    exists ad. split; [reflexivity|]. apply filter_In. auto.
Qed.

Lemma matchingAds_rounded (ads : list Ad) :
  Forall (fun m => distance m = JS.Math_round (raw (ad m))) (matchingAds ads).
Proof.
  apply Forall_forall. intros m Hm.
  apply matchingAds_In in Hm as (ad & _ & _ & _ & ->). reflexivity.
Qed.

Lemma matchingAds_active (ads : list Ad) :
  Forall (fun m => In (ad m) ads /\ active (ad m) = true) (matchingAds ads).
Proof.
  apply Forall_forall. intros m Hm.
  apply matchingAds_In in Hm as (ad & Hin & Hact & _ & ->). auto.
Qed.

Lemma matchingAds_sorted (ads : list Ad) :
  StronglySorted ranksBefore (matchingAds ads).
Proof. apply rank_sorted. Qed.

Lemma matchingAds_ext (calculateDistance' : Q -> Q -> Q -> Q -> Q)
  (ads : list Ad) :
  (forall ad, In ad ads ->
     JS.Math_round
       (calculateDistance' userLat userLng (latitude ad) (longitude ad))
     = JS.Math_round (raw ad)) ->
  App.matchingAds calculateDistance' userLat userLng ads = matchingAds ads.
Proof.
  intros H. unfold App.matchingAds. do 2 f_equal.
  apply map_ext_in. intros ad Hin. apply filter_In in Hin as [Hin _].
  unfold App.withDistance. f_equal. now apply H.
Qed.

(** C7 (amended).  A record is in the match set exactly when it is in the
    catalog, active, and its distance rounded to the nearest meter is at
    most its own radius; for a whole-meter radius [n] that is a raw distance
    below [n + 0.5], so a point at exactly [n] matches and a point at
    [n + 1] does not. *)
Theorem radius_filter_on_rounded_distance (ads : list Ad) (ad : Ad) :
  (In (withDistance ad) (matchingAds ads) <->
   In ad ads /\ active ad = true /\ JS.Math_round (raw ad) <= radius ad) /\
  (forall n : Z, radius ad == inject_Z n ->
     (JS.Math_round (raw ad) <= radius ad <-> raw ad < inject_Z n + 0.5)).
Proof.
  split.
  - rewrite matchingAds_In. split.
    + intros (ad' & Hin & Hact & Hle & Heq).
      assert (ad = ad') as -> by (injection Heq; auto). auto.
    + intros (Hin & Hact & Hle). exists ad. auto.
  - intros n Hn. rewrite Hn. apply Math_round_le_integer.
Qed.

(** C3 (amended).  In the recommendation route every match carries the
    distance already rounded to the nearest meter, the ranked list is
    ordered by priority and then by that rounded distance, and the result
    depends on the raw distances only through their rounding: candidates of
    equal priority whose raw distances round to the same meter tie. *)
Theorem rank_key_is_rounded_distance (ads : list Ad) :
  Forall (fun m => distance m = JS.Math_round (raw (ad m))) (matchingAds ads) /\
  StronglySorted ranksBefore (matchingAds ads) /\
  (forall calculateDistance' : Q -> Q -> Q -> Q -> Q,
     (forall ad, In ad ads ->
        JS.Math_round
          (calculateDistance' userLat userLng (latitude ad) (longitude ad))
        = JS.Math_round (raw ad)) ->
     App.matchingAds calculateDistance' userLat userLng ads = matchingAds ads).
Proof.
  split; [apply matchingAds_rounded|].
  split; [apply matchingAds_sorted|].
  intros calculateDistance'. apply matchingAds_ext.
Qed.

End MatchSet.

(** C7 as stated fails: [edge] is 5000.4 m from the user, beyond its radius
    of 5000 m, and is in the match set. *)
Lemma radius_filter_counterexample :
  active edge = true /\
  ~ meridianDistance 0 0 (latitude edge) (longitude edge) <= radius edge /\
  In (App.withDistance meridianDistance 0 0 edge)
     (App.matchingAds meridianDistance 0 0 [edge]).
Proof.
  split; [reflexivity|]. split.
  - intros H. apply Qle_bool_iff in H. vm_compute in H. discriminate.
  - vm_compute. left. reflexivity.
Qed.

(** C3 as stated fails: [cafeB] is nearer than [cafeA] by raw distance
    (1234.2 m against 1234.4 m) and has the same priority, yet the ranking
    leaves [cafeA] first: both keys are 1234. *)
Lemma rank_key_counterexample :
  priority cafeA == priority cafeB /\
  meridianDistance 0 0 (latitude cafeB) (longitude cafeB)
  < meridianDistance 0 0 (latitude cafeA) (longitude cafeA) /\
  map (fun m => (id (ad m), distance m))
      (App.matchingAds meridianDistance 0 0 [cafeA; cafeB])
  = [("a", 1234); ("b", 1234)].
Proof.
  split; [reflexivity|]. split; [|reflexivity].
  vm_compute. reflexivity.
Qed.

(** The distances of the specification's example, 1234.4 m and 1234.6 m,
    round to different meters and so stay ordered. *)
Example round_1234 :
  JS.Math_round 1234.4 = 1234 /\ JS.Math_round 1234.6 = 1235.
Proof. split; reflexivity. Qed.


(** ** Travel-time enrichment *)

Section Enrichment.
Variable w : World.
Variables userLat userLng : Q.

Lemma withDuration_run (m : Match) (index : nat) :
  App.withDuration w userLat userLng m index
  = ([request userLat userLng m],
     Return (App.entry m (outcomeDuration (osrm w index)))).
Proof.
  unfold App.withDuration, fetchOsrm, outcomeDuration, request.
  destruct (osrm w index) as [| message | response]; cbn; try reflexivity.
  destruct (App.notJson (contentType response)); cbn; [reflexivity|].
  unfold json. destruct (body response); reflexivity.
Qed.

Lemma Promise_all_withDuration (matchingAds : list Match) (index : nat) :
  Promise_all
    (JS.map_from (App.withDuration w userLat userLng) index matchingAds)
  = (map (request userLat userLng) matchingAds,
     Return (JS.map_from
               (fun m i => App.entry m (outcomeDuration (osrm w i)))
               index matchingAds)).
Proof.
  revert index. induction matchingAds as [|m l IH]; intros index.
  - reflexivity.
  - cbn [JS.map_from Promise_all map]. rewrite withDuration_run, IH.
    unfold bind, ret. cbn. now rewrite app_nil_r.
Qed.

Lemma map_from_length {A B : Type} (f : A -> nat -> B) (l : list A) (i : nat) :
  List.length (JS.map_from f i l) = List.length l.
Proof.
  revert i. induction l as [|x l IH]; intros i; cbn; [reflexivity|].
  now rewrite IH.
Qed.

Lemma map_from_nth_error {A B : Type} (f : A -> nat -> B) (l : list A)
  (i k : nat) :
  nth_error (JS.map_from f i l) k
  = option_map (fun x => f x (i + k)%nat) (nth_error l k).
Proof.
  revert i k. induction l as [|x l IH]; intros i k.
  - now destruct k.
  - destruct k as [|k]; cbn.
    + now rewrite Nat.add_0_r.
    + rewrite IH. now rewrite Nat.add_succ_r.
Qed.

Lemma outcomeDuration_usable (o : FetchOutcome) (d : Q) :
  usableRoute o d -> outcomeDuration o = Some (JS.Math_round d).
Proof.
  intros (response & ct & data & route & rest & H).
  destruct H as (-> & Hct & Hinc & Hb & Hc & Hr & ->).
  unfold outcomeDuration, App.notJson, App.routeDuration, App.codeOk.
  rewrite Hct, Hinc, Hb, Hc, Hr. cbn.
  destruct ct; [discriminate Hinc|reflexivity].
Qed.

Lemma outcomeDuration_unusable (o : FetchOutcome) :
  (forall d, ~ usableRoute o d) -> outcomeDuration o = None.
Proof.
  intros H. destruct o as [| message | response]; try reflexivity.
  unfold outcomeDuration, App.notJson.
  destruct (contentType response) as [ct|] eqn:Hct; [|reflexivity].
  destruct (JS.includes ct "application/json") eqn:Hinc;
    [|now rewrite orb_true_r].
  rewrite orb_false_r.
  destruct (JS.falsy (Some ct)); [reflexivity|].
  destruct (body response) as [data|] eqn:Hb; [|reflexivity].
  unfold App.routeDuration, App.codeOk.
  destruct (code data) as [c|] eqn:Hc; [|reflexivity].
  destruct (String.eqb c "Ok") eqn:Heq; [|reflexivity].
  apply String.eqb_eq in Heq. subst c.
  destruct (routes data) as [[|route rest]|] eqn:Hr; try reflexivity.
  exfalso. apply (H (duration route)).
  exists response, ct, data, route, rest. auto 10.
Qed.

(** C1 (amended).  Enrichment returns one entry per candidate, in the order
    of the candidates and carrying the candidate's own fields and distance.
    The entry of a candidate whose routing call gave a usable route (JSON
    content type, parsable body, code 'Ok', at least one route) has the
    rounded duration of the first route; the entry of every other candidate
    (timeout, network failure, non-JSON or unparsable answer, another code,
    no route) has a null duration.  The HTTP status is not consulted, and
    the outcome of one call affects no other entry. *)
Theorem enrichment_preserves_candidates (matchingAds : list Match) :
  exists adsWithDuration,
    completion (App.adsWithDuration w userLat userLng matchingAds)
    = Return adsWithDuration /\
    List.length adsWithDuration = List.length matchingAds /\
    forall index m,
      nth_error matchingAds index = Some m ->
      exists duration,
        nth_error adsWithDuration index = Some (App.entry m duration) /\
        (forall d, usableRoute (osrm w index) d ->
                   duration = Some (JS.Math_round d)) /\
        ((forall d, ~ usableRoute (osrm w index) d) -> duration = None).
Proof.
  unfold App.adsWithDuration, JS.mapi. rewrite Promise_all_withDuration.
  eexists. split; [reflexivity|]. split; [apply map_from_length|].
  intros index m Hm. exists (outcomeDuration (osrm w index)).
  split; [|split].
  - rewrite map_from_nth_error, Hm. reflexivity.
  - apply outcomeDuration_usable.
  - apply outcomeDuration_unusable.
Qed.

Lemma map_from_entry_id (matchingAds : list Match) (index : nat) :
  map App.entry_id
    (JS.map_from (fun m i => App.entry m (outcomeDuration (osrm w i)))
       index matchingAds)
  = map (fun m => id (ad m)) matchingAds.
Proof.
  revert index. induction matchingAds as [|m l IH]; intros index;
    [reflexivity|].
  cbn. now rewrite IH.
Qed.

End Enrichment.

(** C1 as stated fails for a non-success status: the answer [badGateway]
    has status 500 and the candidate still gets the duration 313. *)
Lemma enrichment_ignores_status :
  osrm (badGatewayWorld None) 0 = Answered badGateway /\
  status badGateway = 500%nat /\
  completion (App.adsWithDuration (badGatewayWorld None) 0 0
                [App.withDistance meridianDistance 0 0 cafeA])
  = Return [App.entry (App.withDistance meridianDistance 0 0 cafeA) (Some 313)].
Proof. repeat split. Qed.

(** ** Validation of the query coordinates *)

Lemma validCoordinates_checks (userLat userLng : JS.number) :
  validCoordinates userLat userLng
  = negb (JS.isNaN userLat || JS.isNaN userLng)
    && negb (App.outOfRange userLat userLng).
Proof.
  unfold validCoordinates, App.outOfRange.
  destruct userLat as [|[|]|x], userLng as [|[|]|y]; cbn; try reflexivity;
    rewrite ?orb_true_r; try reflexivity.
  destruct (Qle_bool (-90) x), (Qle_bool x 90), (Qle_bool (-180) y),
    (Qle_bool y 180); reflexivity.
Qed.

(** C6.  A query whose parsed latitude or longitude is NaN, infinite or
    outside [-90, 90] x [-180, 180] is answered with a 400 validation error,
    and the handler performs no effect at all: ads.json is not read and no
    routing request is issued. *)
Theorem invalid_coordinates_rejected
  (parseFloat : string -> JS.number)
  (calculateDistance : Q -> Q -> Q -> Q -> Q)
  (w : World) (latitude longitude : string) :
  validCoordinates (parseFloat latitude) (parseFloat longitude) = false ->
  exists error message,
    App.recommendations parseFloat calculateDistance w
      (Some latitude) (Some longitude)
    = ([], Return (App.BadRequest error message)).
Proof.
  intros H. rewrite validCoordinates_checks in H.
  unfold App.recommendations.
  destruct (JS.falsy (Some latitude) || JS.falsy (Some longitude));
    [do 2 eexists; reflexivity|].
  cbn [App.asString].
  destruct (JS.isNaN (parseFloat latitude) || JS.isNaN (parseFloat longitude));
    [do 2 eexists; reflexivity|].
  cbn [negb andb] in H. rewrite negb_false_iff in H.
  rewrite H. do 2 eexists; reflexivity.
Qed.

Lemma invalid_coordinates_rejected_witness :
  exists error message,
    App.recommendations parseDecimal meridianDistance (quietWorld (Some [edge]))
      (Some "200") (Some "0")
    = ([], Return (App.BadRequest error message)).
Proof.
  apply (invalid_coordinates_rejected parseDecimal meridianDistance
           (quietWorld (Some [edge])) "200" "0").
  reflexivity.
Defined.

Lemma missing_coordinates_rejected
  (parseFloat : string -> JS.number)
  (calculateDistance : Q -> Q -> Q -> Q -> Q)
  (w : World) (latitude longitude : option string) :
  JS.falsy latitude || JS.falsy longitude = true ->
  App.recommendations parseFloat calculateDistance w latitude longitude
  = ([], Return (App.BadRequest "Missing required parameters"
                   "Both latitude and longitude are required")).
Proof. intros H. unfold App.recommendations. now rewrite H. Qed.

(** The reply to a query with present, valid coordinates. *)
Lemma valid_coordinates_accepted
  (parseFloat : string -> JS.number)
  (calculateDistance : Q -> Q -> Q -> Q -> Q)
  (w : World) (latitude longitude : string) :
  JS.falsy (Some latitude) || JS.falsy (Some longitude) = false ->
  validCoordinates (parseFloat latitude) (parseFloat longitude) = true ->
  App.recommendations parseFloat calculateDistance w
    (Some latitude) (Some longitude)
  = (ads <- App.getAds w ;;
     let userLat := JS.valueOf (parseFloat latitude) in
     let userLng := JS.valueOf (parseFloat longitude) in
     let matchingAds :=
       App.matchingAds calculateDistance userLat userLng ads in
     if (0 <? List.length matchingAds)%nat then
       adsWithDuration <- App.adsWithDuration w userLat userLng matchingAds ;;
       ret (App.Recommendations adsWithDuration
              (List.length adsWithDuration) None)
     else
       ret (App.Recommendations [] 0
              (Some "No ads available in your area")))%io.
Proof.
  intros Hp Hv. rewrite validCoordinates_checks in Hv.
  apply andb_true_iff in Hv as [Hn Hr].
  rewrite negb_true_iff in Hn, Hr.
  unfold App.recommendations. rewrite Hp. cbn [App.asString].
  rewrite Hn, Hr. reflexivity.
Qed.

(** ** The catalog read and its callers *)

Lemma App_getAds_run (w : World) :
  App.getAds w
  = ([ReadAdsFile],
     Return (match adsFile w with Some ads => ads | None => [] end)).
Proof. unfold App.getAds, readAds. destruct (adsFile w); reflexivity. Qed.

Lemma Chat_getAds_run (w : World) :
  Chat.getAds w
  = ([ReadAdsFile],
     match adsFile w with
     | Some ads => Return ads
     | None => Throw (OtherError "ENOENT: no such file or directory")
     end).
Proof. unfold Chat.getAds, readAds. destruct (adsFile w); reflexivity. Qed.

(** With ads.json unreadable the recommendation route answers with no
    matches. *)
Lemma recommendations_without_catalog
  (parseFloat : string -> JS.number)
  (calculateDistance : Q -> Q -> Q -> Q -> Q)
  (w : World) (latitude longitude : string) :
  adsFile w = None ->
  JS.falsy (Some latitude) || JS.falsy (Some longitude) = false ->
  validCoordinates (parseFloat latitude) (parseFloat longitude) = true ->
  App.recommendations parseFloat calculateDistance w
    (Some latitude) (Some longitude)
  = ([ReadAdsFile],
     Return (App.Recommendations [] 0 (Some "No ads available in your area"))).
Proof.
  intros Hf Hp Hv. rewrite valid_coordinates_accepted by assumption.
  rewrite App_getAds_run, Hf. reflexivity.
Qed.

(** The reply to a valid query lists the ranked matches, in their order. *)
Lemma recommendations_in_ranked_order
  (parseFloat : string -> JS.number)
  (calculateDistance : Q -> Q -> Q -> Q -> Q)
  (w : World) (latitude longitude : string) :
  JS.falsy (Some latitude) || JS.falsy (Some longitude) = false ->
  validCoordinates (parseFloat latitude) (parseFloat longitude) = true ->
  exists ads message,
    completion (App.recommendations parseFloat calculateDistance w
                  (Some latitude) (Some longitude))
    = Return (App.Recommendations ads (List.length ads) message) /\
    map App.entry_id ads
    = map (fun m => id (ad m))
        (App.matchingAds calculateDistance
           (JS.valueOf (parseFloat latitude))
           (JS.valueOf (parseFloat longitude))
           (match adsFile w with Some ads => ads | None => [] end)).
Proof.
  intros Hp Hv. rewrite valid_coordinates_accepted by assumption.
  rewrite App_getAds_run. unfold bind at 1. cbn zeta.
  set (matching := App.matchingAds _ _ _ _).
  destruct (0 <? List.length matching)%nat eqn:E.
  - unfold App.adsWithDuration, JS.mapi.
    rewrite Promise_all_withDuration. cbn.
    do 2 eexists. split; [reflexivity|]. apply map_from_entry_id.
  - apply Nat.ltb_ge in E. destruct matching; [|cbn in E; lia].
    exists [], (Some "No ads available in your area"). split; reflexivity.
Qed.

(** A timeout of the first call leaves the second candidate its duration. *)
Example one_timeout_of_two :
  App.recommendations parseDecimal meridianDistance
    (mixedWorld (Some [cafeA; cafeB])) (Some "0") (Some "0")
  = ([ReadAdsFile;
      request 0 0 (App.withDistance meridianDistance 0 0 cafeA);
      request 0 0 (App.withDistance meridianDistance 0 0 cafeB)],
     Return (App.Recommendations
               [App.entry (App.withDistance meridianDistance 0 0 cafeA) None;
                App.entry (App.withDistance meridianDistance 0 0 cafeB)
                          (Some 313)]
               2 None)).
Proof. reflexivity. Qed.

(** ** The conversational near-set *)

Section SortMap.
Context {A B : Type} (h : A -> B).
Context (compareA : A -> A -> Q) (compareB : B -> B -> Q).
Hypothesis compare_h : forall a b, compareB (h a) (h b) = compareA a b.

Lemma insert_map (x : A) (l : list A) :
  JS.insert compareB (h x) (map h l) = map h (JS.insert compareA x l).
Proof.
  induction l as [|y l IH]; [reflexivity|].
  cbn [map JS.insert]. unfold JS.after. rewrite compare_h.
  destruct (negb (Qle_bool (compareA x y) 0)); cbn [map]; congruence.
Qed.

Lemma sort_map (l : list A) :
  JS.sort compareB (map h l) = map h (JS.sort compareA l).
Proof.
  induction l as [|x l IH]; [reflexivity|].
  cbn [map JS.sort]. now rewrite IH, insert_map.
Qed.

End SortMap.

Lemma filter_map_commute {A B : Type} (h : A -> B) (p : B -> bool)
  (l : list A) :
  filter p (map h l) = map h (filter (fun a => p (h a)) l).
Proof.
  induction l as [|x l IH]; [reflexivity|].
  cbn [map filter]. destruct (p (h x)); cbn [map]; congruence.
Qed.

Lemma firstn_In {A : Type} (n : nat) (l : list A) (x : A) :
  In x (firstn n l) -> In x l.
Proof.
  intros H. rewrite <- (firstn_skipn n l). apply in_or_app. now left.
Qed.

Lemma StronglySorted_firstn {A : Type} (R : A -> A -> Prop) (n : nat)
  (l : list A) :
  StronglySorted R l -> StronglySorted R (firstn n l).
Proof.
  intros H. revert n. induction H as [|x l Hl IH Hx]; intros [|n]; cbn;
    try constructor.
  - apply IH.
  - apply Forall_forall. intros y Hy. rewrite Forall_forall in Hx.
    apply Hx. eapply firstn_In; eauto.
Qed.

(** In a sorted list an element is among the first [n], or the first [n]
    are [n] elements that all stand before it. *)
Lemma firstn_sorted_cut {A : Type} (R : A -> A -> Prop) (n : nat)
  (l : list A) (x : A) :
  StronglySorted R l -> In x l ->
  In x (firstn n l) \/
  (List.length (firstn n l) = n /\ Forall (fun y => R y x) (firstn n l)).
Proof.
  intros H. revert n. induction H as [|a l Hl IH Ha]; intros n Hin.
  - destruct Hin.
  - destruct n as [|n]; [right; split; [reflexivity|constructor]|].
    cbn [firstn]. destruct Hin as [->|Hin]; [left; now left|].
    destruct (IH n Hin) as [H|[Hlen Hall]]; [left; now right|].
    right. split; [cbn; now rewrite Hlen|].
    constructor; [|exact Hall].
    rewrite Forall_forall in Ha. now apply Ha.
Qed.

Lemma byDistance_nearerOrEqual (a b : Match) :
  inOrder Chat.byDistance a b <-> nearerOrEqual a b.
Proof. unfold inOrder, Chat.byDistance, nearerOrEqual. split; lra. Qed.

Lemma byDistance_total (a b : Match) :
  inOrder Chat.byDistance a b \/ inOrder Chat.byDistance b a.
Proof.
  rewrite !byDistance_nearerOrEqual. unfold nearerOrEqual.
  destruct (Qlt_le_dec (distance b) (distance a)); [right|left]; lra.
Qed.

Lemma byDistance_trans (a b c : Match) :
  inOrder Chat.byDistance a b -> inOrder Chat.byDistance b c ->
  inOrder Chat.byDistance a c.
Proof. rewrite !byDistance_nearerOrEqual. unfold nearerOrEqual. lra. Qed.

Section NearSet.
Variable calculateDistance : Q -> Q -> Q -> Q -> Q.
Variables userLat userLng maxDistance : Q.

Abbreviation raw ad :=
  (calculateDistance userLat userLng (latitude ad) (longitude ad)).
Abbreviation withDistance :=
  (Chat.withDistance calculateDistance userLat userLng).
Abbreviation inReach :=
  (inReach calculateDistance userLat userLng maxDistance).

Lemma getNearbyAds_run (w : World) :
  Chat.getNearbyAds calculateDistance w (Some (userLat, userLng)) maxDistance
  = ([ReadAdsFile],
     match adsFile w with
     | Some ads => Return (JS.slice0 5 (inReach ads))
     | None => Throw (OtherError "ENOENT: no such file or directory")
     end).
Proof.
  unfold Chat.getNearbyAds. rewrite Chat_getAds_run.
  destruct (adsFile w); reflexivity.
Qed.

Lemma inReach_In (ads : list Ad) (m : Match) :
  In m (inReach ads) <->
  exists ad, In ad ads /\ active ad = true /\ raw ad <= maxDistance /\
             m = withDistance ad.
Proof.
  unfold inReach. rewrite sort_In, filter_In, in_map_iff, Qle_bool_iff.
  split.
  - intros [(ad & <- & Hin) Hle]. apply filter_In in Hin as [Hin Hact].
    exists ad. auto.
  - intros (ad & Hin & Hact & Hle & ->). split; [|exact Hle].
    exists ad. split; [reflexivity|]. apply filter_In. auto.
Qed.

Lemma inReach_sorted (ads : list Ad) :
  StronglySorted nearerOrEqual (inReach ads).
Proof.
  eapply StronglySorted_iff; [apply byDistance_nearerOrEqual|].
  apply sort_sorted; [apply byDistance_total|apply byDistance_trans].
Qed.

Lemma inReach_reprice (g : Ad -> Q * Q) (ads : list Ad) :
  inReach (map (reprice g) ads) = map (repriceMatch g) (inReach ads).
Proof.
  unfold inReach.
  rewrite (filter_map_commute (reprice g) active). cbn [reprice active].
  rewrite !map_map.
  rewrite <- (map_map withDistance (repriceMatch g)).
  rewrite (filter_map_commute (repriceMatch g)). cbn [repriceMatch distance].
  apply sort_map. reflexivity.
Qed.

End NearSet.

(** C8.  With a location and a readable catalog, [getNearbyAds] with its
    default ceiling reads the catalog once and returns at most five matches,
    in ascending order of raw distance; each is an active record at most
    20000 m away, whatever its own radius; an active record within 20000 m
    is returned unless five returned ones are at least as near; and giving
    the records other radii and priorities changes nothing but those
    fields. *)
Theorem nearby_ads_closest_five
  (calculateDistance : Q -> Q -> Q -> Q -> Q) (w : World) (ads : list Ad)
  (userLat userLng : Q) :
  adsFile w = Some ads ->
  exists near,
    Chat.getNearbyAds calculateDistance w (Some (userLat, userLng))
      Chat.maxDistance_default
    = ([ReadAdsFile], Return near) /\
    (List.length near <= 5)%nat /\
    StronglySorted nearerOrEqual near /\
    Forall (fun m =>
              In (ad m) ads /\ active (ad m) = true /\
              distance m
              = calculateDistance userLat userLng
                  (latitude (ad m)) (longitude (ad m)) /\
              distance m <= 20000) near /\
    (forall ad,
        In ad ads -> active ad = true ->
        calculateDistance userLat userLng (latitude ad) (longitude ad)
        <= 20000 ->
        In (Chat.withDistance calculateDistance userLat userLng ad) near \/
        (List.length near = 5%nat /\
         Forall (fun m =>
                   distance m
                   <= calculateDistance userLat userLng
                        (latitude ad) (longitude ad)) near)) /\
    (forall (g : Ad -> Q * Q) (w' : World),
        adsFile w' = Some (map (reprice g) ads) ->
        Chat.getNearbyAds calculateDistance w' (Some (userLat, userLng))
          Chat.maxDistance_default
        = ([ReadAdsFile], Return (map (repriceMatch g) near))).
Proof.
  intros Hw.
  exists (JS.slice0 5 (inReach calculateDistance userLat userLng
                         Chat.maxDistance_default ads)).
  split; [now rewrite getNearbyAds_run, Hw|].
  split; [apply firstn_le_length|].
  split; [apply StronglySorted_firstn, inReach_sorted|].
  split; [|split].
  - apply Forall_forall. intros m Hm. apply firstn_In in Hm.
    apply inReach_In in Hm as (ad & Hin & Hact & Hle & ->). cbn. auto.
  - intros ad Hin Hact Hle.
    destruct (firstn_sorted_cut nearerOrEqual 5
                (inReach calculateDistance userLat userLng
                   Chat.maxDistance_default ads)
                (Chat.withDistance calculateDistance userLat userLng ad))
      as [H|[Hlen Hall]].
    + apply inReach_sorted.
    + apply inReach_In. exists ad. auto.
    + now left.
    + right. split; assumption.
  - intros g w' Hw'. rewrite getNearbyAds_run, Hw'.
    rewrite inReach_reprice. unfold JS.slice0. now rewrite firstn_map.
Qed.

Lemma nearby_ads_closest_five_witness :
  exists near,
    Chat.getNearbyAds meridianDistance
      (quietWorld (Some [cafeA; cafeB; closed])) (Some (0, 0)) Chat.maxDistance_default
    = ([ReadAdsFile], Return near) /\
    (List.length near <= 5)%nat.
Proof.
  destruct (nearby_ads_closest_five meridianDistance
              (quietWorld (Some [cafeA; cafeB; closed]))
              [cafeA; cafeB; closed] 0 0 eq_refl)
    as (near & Hrun & Hlen & _).
  exists near. split; assumption.
Defined.

(** C4 (amended).  [getAds] returns every record of ads.json, active or
    not, in both files; it is the [filter(ad => ad.active)] of each matching
    path that drops inactive records, so that every match of the
    recommendation route and every match of the conversational near-set
    comes from an active record of the catalog. *)
Theorem matches_come_from_active_records
  (calculateDistance : Q -> Q -> Q -> Q -> Q) (w : World) (ads : list Ad)
  (userLat userLng maxDistance : Q) :
  adsFile w = Some ads ->
  completion (App.getAds w) = Return ads /\
  completion (Chat.getAds w) = Return ads /\
  Forall (fun m => In (ad m) ads /\ active (ad m) = true)
         (App.matchingAds calculateDistance userLat userLng ads) /\
  exists near,
    completion (Chat.getNearbyAds calculateDistance w
                  (Some (userLat, userLng)) maxDistance)
    = Return near /\
    Forall (fun m => In (ad m) ads /\ active (ad m) = true) near.
Proof.
  intros Hw. rewrite App_getAds_run, Chat_getAds_run, Hw.
  split; [reflexivity|]. split; [reflexivity|].
  split; [apply matchingAds_active|].
  rewrite getNearbyAds_run, Hw. eexists. split; [reflexivity|].
  apply Forall_forall. intros m Hm. apply firstn_In in Hm.
  apply inReach_In in Hm as (ad & Hin & Hact & _ & ->). auto.
Qed.

Lemma matches_come_from_active_records_witness :
  completion (App.getAds (quietWorld (Some [cafeA; closed])))
  = Return [cafeA; closed] /\
  Forall (fun m => In (ad m) [cafeA; closed] /\ active (ad m) = true)
         (App.matchingAds meridianDistance 0 0 [cafeA; closed]).
Proof.
  destruct (matches_come_from_active_records meridianDistance
              (quietWorld (Some [cafeA; closed])) [cafeA; closed] 0 0 20000
              eq_refl)
    as (Happ & _ & Hall & _).
  split; assumption.
Defined.

(** C4 as stated fails: the catalog read returns the inactive record
    [closed], in app.ts and in chatHandler.ts, and the debugging route
    GET /api/ads passes it on. *)
Lemma catalog_read_returns_inactive :
  active closed = false /\
  App.getAds (quietWorld (Some [cafeA; closed]))
  = ([ReadAdsFile], Return [cafeA; closed]) /\
  Chat.getAds (quietWorld (Some [cafeA; closed]))
  = ([ReadAdsFile], Return [cafeA; closed]) /\
  App.allAds (quietWorld (Some [cafeA; closed]))
  = ([ReadAdsFile], Return [cafeA; closed]).
Proof. repeat split. Qed.

(** C5, the failing path.  With ads.json unreadable, an API key configured
    and a user location, the chat handler answers with status 500: the
    exception of [getAds] in chatHandler.ts is caught only by the handler's
    outermost [catch].  The generator is never called. *)
Theorem chat_catalog_failure_is_server_error
  (calculateDistance : Q -> Q -> Q -> Q -> Q) (Number_toString : Q -> string)
  (preamble rules : string) (w : World) (message : string)
  (userLocation : Q * Q) (conversationHistory : list (Chat.Role * string)) :
  adsFile w = None ->
  JS.falsy (GEMINI_API_KEY w) = false ->
  exists t,
    Chat.handleChatMessage calculateDistance Number_toString preamble rules
      w message (Some userLocation) conversationHistory
    = (t, Return (Chat.ServerError "Failed to process chat message"
           "I'm sorry, I'm having trouble right now. Please try again in a moment."
           "ENOENT: no such file or directory")) /\
    forall prompt, ~ In (GenerateContent prompt) t.
Proof.
  intros Hf Hk. destruct userLocation as [lat lng].
  unfold Chat.handleChatMessage. rewrite Hk.
  rewrite getNearbyAds_run, Hf.
  unfold Chat.getCurrentLocationName.
  destruct (nominatim w) as [|st|address]; cbn;
    (eexists; split; [reflexivity|]);
    intros prompt [H|[H|[]]]; discriminate H.
Qed.

Lemma chat_catalog_failure_is_server_error_witness :
  exists t,
    Chat.handleChatMessage meridianDistance (fun _ => "1e+21") "" ""
      (quietWorld None) "coffee nearby?" (Some (0, 0)) []
    = (t, Return (Chat.ServerError "Failed to process chat message"
           "I'm sorry, I'm having trouble right now. Please try again in a moment."
           "ENOENT: no such file or directory")) /\
    forall prompt, ~ In (GenerateContent prompt) t.
Proof.
  apply (chat_catalog_failure_is_server_error meridianDistance
           (fun _ => "1e+21") "" "" (quietWorld None) "coffee nearby?"
           (0, 0) []); reflexivity.
Defined.

(** C10.  Without a user location [getNearbyAds] returns the empty list and
    performs no effect, whatever the state of ads.json, and the context
    block of that list is the empty-state sentence; the chat handler then
    reads no catalog, and the only prompt it can send carries that
    sentence as its business section. *)
Theorem no_location_no_catalog_read
  (calculateDistance : Q -> Q -> Q -> Q -> Q) (Number_toString : Q -> string)
  (preamble rules : string) (w : World) (maxDistance : Q) (message : string)
  (conversationHistory : list (Chat.Role * string)) :
  Chat.getNearbyAds calculateDistance w None maxDistance = ([], Return []) /\
  Chat.formatAdsContext Number_toString [] = "No nearby businesses available."
  /\
  (trace (Chat.handleChatMessage calculateDistance Number_toString preamble
            rules w message None conversationHistory) = [] \/
   trace (Chat.handleChatMessage calculateDistance Number_toString preamble
            rules w message None conversationHistory)
   = [GenerateContent
        (Chat.systemPrompt Number_toString preamble rules "Unknown location"
           None "No nearby businesses available." ++
         nl ++ nl ++ "Conversation history:" ++ nl ++
         Chat.historyLines conversationHistory ++
         nl ++ "User's new message: " ++ message)]).
Proof.
  split; [reflexivity|]. split; [reflexivity|].
  unfold Chat.handleChatMessage.
  destruct (JS.falsy (GEMINI_API_KEY w)); [left; reflexivity|].
  right. cbn.
  match goal with |- context [gemini w ?p] => destruct (gemini w p) end;
    reflexivity.
Qed.

(** ** Doubles: the error of a rounding, and the values it keeps *)

Lemma pow2_pos (z : Z) : 0 < 2 ^ z.
Proof. apply Qpower_0_lt. reflexivity. Qed.

Lemma pow2_plus (a b : Z) : 2 ^ (a + b) == 2 ^ a * 2 ^ b.
Proof. apply Qpower_plus. discriminate. Qed.

Lemma pow2_inject (z : Z) : (0 <= z)%Z -> 2 ^ z == inject_Z (2 ^ z).
Proof. intros H. symmetry. now apply (Zpower_Qpower 2 z). Qed.

Lemma Qfloor_unique (y : Q) (k : Z) :
  inject_Z k <= y -> y < inject_Z k + 1 -> Qfloor y = k.
Proof.
  intros Hle Hlt.
  assert (k <= Qfloor y)%Z
    by (rewrite <- (Qfloor_Z k); now apply Qfloor_resp_le).
  assert (Qfloor y < k + 1)%Z by now apply Qfloor_lt_succ.
  lia.
Qed.

Lemma roundHalfEven_near (x : Q) :
  Qabs (inject_Z (JS.roundHalfEven x) - x) <= 0.5.
Proof.
  unfold JS.roundHalfEven.
  pose proof (Qfloor_le x) as Hle. pose proof (Qlt_floor x) as Hlt.
  push_inject.
  destruct (Qcompare_spec (x - inject_Z (Qfloor x)) 0.5) as [E|L|G];
    [destruct (Z.even (Qfloor x))| |];
    push_inject; apply Qabs_Qle_condition; split; lra.
Qed.

Lemma roundHalfEven_whole (x : Q) (z : Z) :
  x == inject_Z z -> JS.roundHalfEven x = z.
Proof.
  intros H. unfold JS.roundHalfEven.
  rewrite (Qfloor_comp _ _ H), Qfloor_Z.
  assert ((x - inject_Z z ?= 0.5) = Lt) as -> by (apply -> Qlt_alt; lra).
  reflexivity.
Qed.

Lemma floorLog2_bounds (x : Q) :
  0 < x -> 2 ^ JS.floorLog2 x <= x /\ x < 2 ^ (JS.floorLog2 x + 1).
Proof.
  destruct x as [n d]. intros Hx.
  assert (0 < n)%Z as Hn by (unfold Qlt in Hx; cbn in Hx; lia).
  pose proof (Z.log2_spec n Hn) as [Ha1 Ha2].
  pose proof (Z.log2_spec (Z.pos d) eq_refl) as [Hb1 Hb2].
  pose proof (Z.log2_nonneg n) as Ha0.
  pose proof (Z.log2_nonneg (Z.pos d)) as Hb0.
  set (a := Z.log2 n) in *. set (b := Z.log2 (Z.pos d)) in *.
  assert ((n # d) * inject_Z (Z.pos d) == inject_Z n) as Hnd.
  { rewrite Qmake_Qdiv. field. discriminate. }
  assert (inject_Z (2 ^ a) <= inject_Z n) as Qa1 by now rewrite <- Zle_Qle.
  assert (inject_Z n < inject_Z (2 ^ (a + 1))) as Qa2
    by (rewrite <- Zlt_Qlt; now rewrite <- Z.add_1_r in Ha2).
  assert (inject_Z (2 ^ b) <= inject_Z (Z.pos d)) as Qb1
    by now rewrite <- Zle_Qle.
  assert (inject_Z (Z.pos d) <= inject_Z (2 ^ (b + 1))) as Qb2
    by (rewrite <- Zle_Qle; rewrite <- Z.add_1_r in Hb2; lia).
  rewrite <- !pow2_inject in * by lia.
  (* x < 2 ^ (a - b + 1) *)
  assert ((n # d) < 2 ^ (a - b + 1)) as Hup.
  { apply (Qmult_lt_r _ _ (2 ^ b) (pow2_pos b)).
    rewrite <- pow2_plus. replace (a - b + 1 + b)%Z with (a + 1)%Z by lia.
    apply Qle_lt_trans with ((n # d) * inject_Z (Z.pos d));
      [|rewrite Hnd; exact Qa2].
    apply Qmult_le_l; assumption. }
  (* 2 ^ (a - b - 1) <= x *)
  assert (2 ^ (a - b - 1) <= (n # d)) as Hlow.
  { apply (Qmult_le_r _ _ (2 ^ (b + 1)) (pow2_pos (b + 1))).
    rewrite <- pow2_plus. replace (a - b - 1 + (b + 1))%Z with a by lia.
    apply Qle_trans with ((n # d) * inject_Z (Z.pos d));
      [rewrite Hnd; exact Qa1|].
    apply Qmult_le_l; assumption. }
  unfold JS.floorLog2. cbn [Qnum Qden]. fold a b.
  destruct (Qle_bool (2 ^ (a - b)) (n # d)) eqn:T.
  - apply Qle_bool_iff in T. split; assumption.
  - apply not_true_iff_false in T. rewrite Qle_bool_iff in T.
    replace (a - b - 1 + 1)%Z with (a - b)%Z by lia.
    split; [exact Hlow|]. now apply Qnot_le_lt.
Qed.

Lemma double_positive (x : Q) :
  0 < x ->
  JS.double x
  = inject_Z (JS.roundHalfEven
                (x / 2 ^ Z.max (JS.floorLog2 x - 52) (-1074)))
    * 2 ^ Z.max (JS.floorLog2 x - 52) (-1074).
Proof.
  intros H. unfold JS.double. apply -> Qgt_alt in H. now rewrite H.
Qed.

(** A normal value is rounded with a relative error of at most 2^-53. *)
Lemma double_error (x : Q) :
  2 ^ (-1022) <= x ->
  Qabs (JS.double x - x) <= x * (1 # 9007199254740992).
Proof.
  intros Hx.
  assert (0 < x) as H0
    by (eapply Qlt_le_trans; [apply (pow2_pos (-1022))|exact Hx]).
  destruct (floorLog2_bounds x H0) as [Hlo Hhi].
  assert (-1022 < JS.floorLog2 x + 1)%Z as Hfl.
  { apply (Qpower_lt_compat_l_inv 2); [|reflexivity].
    eapply Qle_lt_trans; eassumption. }
  rewrite (double_positive x H0).
  replace (Z.max (JS.floorLog2 x - 52) (-1074)) with (JS.floorLog2 x - 52)%Z
    by lia.
  set (e := (JS.floorLog2 x - 52)%Z).
  pose proof (pow2_pos e) as Hp.
  assert (2 ^ JS.floorLog2 x == 2 ^ e * inject_Z (2 ^ 52)) as Hfe.
  { rewrite <- (pow2_inject 52) by lia. rewrite <- pow2_plus.
    subst e. now replace (JS.floorLog2 x - 52 + 52)%Z with (JS.floorLog2 x)
      by lia. }
  pose proof (roundHalfEven_near (x / 2 ^ e)) as Hr.
  set (m := inject_Z (JS.roundHalfEven (x / 2 ^ e))) in *.
  set (p := 2 ^ e) in *.
  assert (m * p - x == (m - x / p) * p) as -> by (field; lra).
  rewrite Qabs_Qmult, (Qabs_pos p) by lra.
  apply Qle_trans with (0.5 * p).
  - apply Qmult_le_r; assumption.
  - rewrite Hfe in Hlo. change (inject_Z (2 ^ 52)) with 4503599627370496 in Hlo.
    lra.
Qed.

(** Halves of integers below 2^53 are doubles. *)
Lemma double_exact (x : Q) (k : Z) :
  (0 < k < 2 ^ 53)%Z -> x == inject_Z k / 2 -> JS.double x == x.
Proof.
  intros Hk Hx.
  assert (inject_Z 1 <= inject_Z k) as Hk1 by (rewrite <- Zle_Qle; lia).
  assert (inject_Z k < inject_Z (2 ^ 53)) as Hk2 by (rewrite <- Zlt_Qlt; lia).
  change (inject_Z 1) with 1 in Hk1.
  change (inject_Z (2 ^ 53)) with 9007199254740992 in Hk2.
  assert (x == inject_Z k * (1 # 2)) as Hx' by (rewrite Hx; field).
  assert (0 < x) as H0 by lra.
  destruct (floorLog2_bounds x H0) as [Hlo Hhi].
  assert (-1 < JS.floorLog2 x + 1)%Z as Hfl1.
  { apply (Qpower_lt_compat_l_inv 2); [|reflexivity].
    eapply Qle_lt_trans; [|exact Hhi]. change (2 ^ (-1)) with (1 # 2). lra. }
  assert (JS.floorLog2 x < 52)%Z as Hfl2.
  { apply (Qpower_lt_compat_l_inv 2); [|reflexivity].
    eapply Qle_lt_trans; [exact Hlo|].
    change (2 ^ 52) with 4503599627370496. lra. }
  rewrite (double_positive x H0).
  replace (Z.max (JS.floorLog2 x - 52) (-1074)) with (JS.floorLog2 x - 52)%Z
    by lia.
  set (e := (JS.floorLog2 x - 52)%Z).
  pose proof (pow2_pos e) as Hp.
  assert (2 ^ e * (2 * 2 ^ (- e - 1)) == 1) as He.
  { change 2 with (2 ^ 1) at 2. rewrite <- !pow2_plus.
    now replace (e + (1 + (- e - 1)))%Z with 0%Z by lia. }
  assert (x / 2 ^ e == inject_Z (k * 2 ^ (- e - 1))) as Hy.
  { rewrite inject_Z_mult, <- (pow2_inject (- e - 1)) by (subst e; lia).
    rewrite Hx'. set (p := 2 ^ e) in *. set (q := 2 ^ (- e - 1)) in *.
    assert (inject_Z k * (1 # 2) / p
            == inject_Z k * q * (1 # 2) / (p * (2 * q) * (1 # 2)))
      as -> by (field; split; [|lra];
                intros Hq; rewrite Hq in He; lra).
    rewrite He. field. }
  rewrite (roundHalfEven_whole _ _ Hy).
  rewrite inject_Z_mult, <- (pow2_inject (- e - 1)) by (subst e; lia).
  rewrite Hx'. set (p := 2 ^ e) in *. set (q := 2 ^ (- e - 1)) in *.
  assert (inject_Z k * q * p == inject_Z k * (p * (2 * q)) * (1 # 2)) as ->
    by ring.
  rewrite He. ring.
Qed.

(** ** The context block *)

Lemma append_nil_r (s : string) : s ++ "" = s.
Proof. induction s as [|c s IH]; cbn; [reflexivity|now rewrite IH]. Qed.

Lemma append_assoc (a b c : string) : (a ++ b) ++ c = a ++ (b ++ c).
Proof. induction a as [|x a IH]; cbn; [reflexivity|now rewrite IH]. Qed.

Lemma allDigits_app (a b : string) :
  allDigits (a ++ b) = allDigits a && allDigits b.
Proof.
  induction a as [|c a IH]; [reflexivity|].
  cbn. now rewrite IH, andb_assoc.
Qed.

Lemma allDigits_zeros (n : nat) : allDigits (JS.zeros n) = true.
Proof. induction n as [|n IH]; [reflexivity|exact IH]. Qed.

Lemma allDigits_substring (s : string) (i j : nat) :
  allDigits s = true -> allDigits (substring i j s) = true.
Proof.
  revert i j. induction s as [|c s IH]; intros i j H.
  - now destruct i, j.
  - cbn in H. apply andb_true_iff in H as [Hc Hs].
    destruct i as [|i]; [destruct j as [|j]|]; cbn;
      [reflexivity| |now apply IH].
    rewrite Hc. now apply IH.
Qed.

Lemma length_substring (s : string) (i j : nat) :
  (i + j <= String.length s)%nat -> String.length (substring i j s) = j.
Proof.
  revert i j. induction s as [|c s IH]; intros i j H; cbn in H.
  - destruct i, j; try reflexivity; lia.
  - destruct i as [|i]; [destruct j as [|j]|]; cbn; [reflexivity| |].
    + f_equal. apply IH. cbn. lia.
    + apply IH. lia.
Qed.

Lemma length_append (a b : string) :
  String.length (a ++ b) = (String.length a + String.length b)%nat.
Proof. induction a as [|c a IH]; cbn; [reflexivity|now rewrite IH]. Qed.

Lemma length_zeros (n : nat) : String.length (JS.zeros n) = n.
Proof. induction n as [|n IH]; cbn; [reflexivity|now rewrite IH]. Qed.

Lemma allDigits_string_of_uint (d : Decimal.uint) :
  allDigits (NilEmpty.string_of_uint d) = true.
Proof. induction d; cbn; auto. Qed.

Lemma string_of_N_digits (n : N) :
  allDigits (JS.string_of_N n) = true /\
  (1 <= String.length (JS.string_of_N n))%nat.
Proof.
  split; [apply allDigits_string_of_uint|].
  unfold JS.string_of_N.
  assert (N.to_uint n <> Decimal.Nil) as H.
  { destruct n as [|p]; [discriminate|].
    apply Stdlib.Numbers.DecimalPos.Unsigned.to_uint_nonnil. }
  destruct (N.to_uint n); [contradiction| | | | | | | | | |]; cbn; lia.
Qed.

Lemma toFixed_1_oneDecimal (toStringLarge : Q -> string) (x : Q) :
  Qabs x < inject_Z (10 ^ 21) -> oneDecimal (JS.toFixed toStringLarge 1 x).
Proof.
  intros Hx. unfold JS.toFixed.
  set (s := if Qle_bool 0 x then "" else "-").
  set (x' := if Qle_bool 0 x then x else - x).
  assert (Qle_bool (inject_Z (10 ^ 21)) x' = false) as ->.
  { apply not_true_iff_false. rewrite Qle_bool_iff. subst x'.
    destruct (Qle_bool 0 x) eqn:E.
    - apply Qle_bool_iff in E. rewrite Qabs_pos in Hx by assumption. lra.
    - apply not_true_iff_false in E. rewrite Qle_bool_iff in E.
      rewrite Qabs_neg in Hx by lra. lra. }
  set (m0 := JS.string_of_N _).
  destruct (string_of_N_digits
              (Z.to_N (Qfloor (x' * inject_Z (10 ^ Z.of_nat 1) + 0.5))))
    as [Hd Hl].
  fold m0 in Hd, Hl.
  set (m := if (String.length m0 <=? 1)%nat then _ else m0).
  assert (allDigits m = true /\ (2 <= String.length m)%nat) as [Hm Hk].
  { subst m. destruct (String.length m0 <=? 1)%nat eqn:E.
    - apply Nat.leb_le in E. rewrite allDigits_app, allDigits_zeros, Hd.
      split; [reflexivity|].
      rewrite length_append, length_zeros. lia.
    - apply Nat.leb_gt in E. split; [assumption|lia]. }
  assert (String.length (substring (String.length m - 1) 1 m) = 1%nat) as Hlast
    by (apply length_substring; lia).
  assert (allDigits (substring (String.length m - 1) 1 m) = true) as Hdl
    by now apply allDigits_substring.
  destruct (substring (String.length m - 1) 1 m) as [|digit [|? ?]];
    try discriminate Hlast.
  exists s, (substring 0 (String.length m - 1) m), digit.
  split; [reflexivity|].
  split; [subst s; destruct (Qle_bool 0 x); auto|].
  split.
  - intros Hw.
    assert (String.length (substring 0 (String.length m - 1) m)
            = (String.length m - 1)%nat) as Hlen
      by (apply length_substring; lia).
    rewrite Hw in Hlen. cbn in Hlen. lia.
  - split; [now apply allDigits_substring|].
    cbn in Hdl. now rewrite andb_true_r in Hdl.
Qed.

(** *** Lines *)

Lemma linesOf_nonempty (s : string) : linesOf s <> [].
Proof.
  induction s as [|c s IH]; cbn; [discriminate|].
  destruct (Ascii.eqb c _); [discriminate|].
  destruct (linesOf s); discriminate.
Qed.

Lemma linesOf_singleLine (s : string) :
  singleLine s = true -> linesOf s = [s].
Proof.
  induction s as [|c s IH]; cbn; [reflexivity|].
  destruct (Ascii.eqb c _); [discriminate|].
  intros H. now rewrite (IH H).
Qed.

Lemma linesOf_broken (a b : string) :
  linesOf (a ++ nl ++ b) = (linesOf a ++ linesOf b)%list.
Proof.
  induction a as [|c a IH]; [reflexivity|].
  cbn [append linesOf]. rewrite IH.
  destruct (Ascii.eqb c _); [reflexivity|].
  destruct (linesOf a) eqn:E; [now apply linesOf_nonempty in E|reflexivity].
Qed.

Lemma linesOf_concat (entry : string) (entries : list string) :
  linesOf (String.concat nl (entry :: entries))
  = flat_map linesOf (entry :: entries).
Proof.
  revert entry. induction entries as [|e entries IH]; intros entry.
  - cbn. now rewrite app_nil_r.
  - change (String.concat nl (entry :: e :: entries))
      with (entry ++ nl ++ String.concat nl (e :: entries)).
    rewrite linesOf_broken, IH. reflexivity.
Qed.

Lemma singleLine_app (a b : string) :
  singleLine (a ++ b) = singleLine a && singleLine b.
Proof.
  induction a as [|c a IH]; [reflexivity|].
  cbn. now rewrite IH, andb_assoc.
Qed.

Lemma isDigit_singleLine (c : ascii) :
  isDigit c = true -> Ascii.eqb c (ascii_of_nat 10) = false.
Proof.
  intros H. apply Ascii.eqb_neq. intros ->. discriminate H.
Qed.

Lemma allDigits_singleLine (s : string) :
  allDigits s = true -> singleLine s = true.
Proof.
  induction s as [|c s IH]; [reflexivity|].
  cbn [allDigits singleLine]. intros H. apply andb_true_iff in H as [Hc Hs].
  now rewrite (isDigit_singleLine c Hc), IH.
Qed.

Lemma oneDecimal_singleLine (s : string) :
  oneDecimal s -> singleLine s = true.
Proof.
  intros (sign & whole & digit & -> & Hsign & _ & Hw & Hd).
  rewrite !singleLine_app, (allDigits_singleLine whole Hw).
  cbn [singleLine]. rewrite (isDigit_singleLine digit Hd).
  destruct Hsign as [-> | ->]; reflexivity.
Qed.

(** *** Reading a numeral back *)

Lemma isDigit_digitValue (c : ascii) :
  isDigit c = true -> exists d, digitValue c = Some d /\ (0 <= d <= 9)%Z.
Proof.
  unfold isDigit, digitValue. intros H.
  apply andb_true_iff in H as [H1 H2].
  apply Nat.leb_le in H1. apply Nat.leb_le in H2.
  replace ((48 <=? Z.of_nat (nat_of_ascii c))
           && (Z.of_nat (nat_of_ascii c) <=? 57))%Z with true
    by (symmetry; apply andb_true_iff; split; apply Z.leb_le; lia).
  eexists. split; [reflexivity|lia].
Qed.

Lemma digitRun_allDigits (a : string) :
  allDigits a = true ->
  forall acc count, exists value,
    (forall rest,
       digitRun (a ++ rest) acc count
       = digitRun rest value (count + String.length a)) /\
    (0 <= acc -> 0 <= value)%Z.
Proof.
  induction a as [|c a IH]; intros Ha acc count.
  - exists acc. split; [|auto]. intros rest. cbn. now rewrite Nat.add_0_r.
  - cbn [allDigits] in Ha. apply andb_true_iff in Ha as [Hc Ha].
    destruct (isDigit_digitValue c Hc) as (d & Hd & Hd9).
    destruct (IH Ha (10 * acc + d)%Z (S count)) as (value & Hv & Hpos).
    exists value. split; [|lia]. intros rest.
    cbn [append digitRun String.length]. rewrite Hd, Hv.
    now rewrite Nat.add_succ_r.
Qed.

Lemma digitRun_uint_acc (d : Decimal.uint) (acc : positive) (count : nat) :
  fst (fst (digitRun (NilEmpty.string_of_uint d) (Z.pos acc) count))
  = Z.pos (Pos.of_uint_acc d acc).
Proof.
  revert acc count. induction d; intros acc count; [reflexivity|..];
    cbn [NilEmpty.string_of_uint digitRun Pos.of_uint_acc];
    match goal with
    | |- context [digitValue ?c] =>
        let v := eval vm_compute in (digitValue c) in
        change (digitValue c) with v
    end; cbv beta iota;
    rewrite <- (IHd _ (S count)); do 3 f_equal; lia.
Qed.

Lemma digitRun_uint (d : Decimal.uint) (count : nat) :
  fst (fst (digitRun (NilEmpty.string_of_uint d) 0%Z count))
  = Z.of_N (N.of_uint d).
Proof.
  revert count. induction d; intros count; [reflexivity|..];
    cbn [NilEmpty.string_of_uint digitRun];
    match goal with
    | |- context [digitValue ?c] =>
        let v := eval vm_compute in (digitValue c) in
        change (digitValue c) with v
    end; cbv beta iota;
    [apply IHd|apply digitRun_uint_acc..].
Qed.

Lemma digitRun_string_of_N (n : N) (count : nat) :
  fst (fst (digitRun (JS.string_of_N n) 0%Z count)) = Z.of_N n.
Proof.
  unfold JS.string_of_N. rewrite digitRun_uint. f_equal.
  destruct n as [|p]; [reflexivity|].
  apply Stdlib.Numbers.DecimalPos.Unsigned.of_to.
Qed.

Lemma substring_parts (s : string) (i : nat) :
  (i <= String.length s)%nat ->
  s = substring 0 i s ++ substring i (String.length s - i) s.
Proof.
  revert i. induction s as [|c s IH]; intros i H.
  - now destruct i.
  - destruct i as [|i]; cbn [substring append String.length Nat.sub].
    + f_equal. rewrite (IH 0%nat) at 1 by lia.
      now rewrite Nat.sub_0_r; destruct s.
    + f_equal. apply IH. cbn in H. lia.
Qed.

Lemma not_minus (c : ascii) (s : string) :
  isDigit c = true ->
  match String c s with
  | String "-" s' => (true, s')
  | _ => (false, String c s)
  end = (false, String c s).
Proof.
  intros H.
  destruct c as [[] [] [] [] [] [] [] []]; try reflexivity. discriminate H.
Qed.

Lemma digitRun_value (m : string) (count : nat) :
  allDigits m = true ->
  digitRun m 0%Z count
  = (fst (fst (digitRun m 0%Z count)), (count + String.length m)%nat, "").
Proof.
  intros Hm. destruct (digitRun_allDigits m Hm 0%Z count) as (value & Hv & _).
  specialize (Hv ""). rewrite append_nil_r in Hv. now rewrite Hv.
Qed.

(** An unsigned numeral reads back as its value. *)
Lemma parseDecimal_string_of_N (n : N) :
  parseDecimal (JS.string_of_N n) = JS.Finite (inject_Z (Z.of_N n)).
Proof.
  destruct (string_of_N_digits n) as [Hd Hl].
  pose proof (digitRun_value _ 0 Hd) as Hrun.
  rewrite digitRun_string_of_N in Hrun.
  unfold parseDecimal.
  destruct (JS.string_of_N n) as [|c m] eqn:E; [cbn in Hl; lia|].
  cbn [allDigits] in Hd. apply andb_true_iff in Hd as [Hc _].
  rewrite (not_minus c m Hc), Hrun. reflexivity.
Qed.

(** A numeral with the point before its last digit reads back as a tenth
    of the value of its digits. *)
Lemma parseDecimal_tenths (m : string) :
  allDigits m = true -> (2 <= String.length m)%nat ->
  exists whole tenth : Z,
    parseDecimal (substring 0 (String.length m - 1) m ++ "." ++
                  substring (String.length m - 1) 1 m)
    = JS.Finite (inject_Z whole + inject_Z tenth / inject_Z (10 ^ Z.of_nat 1)) /\
    (10 * whole + tenth)%Z = fst (fst (digitRun m 0%Z 0)).
Proof.
  intros Hm Hk.
  set (k := String.length m) in *.
  set (a := substring 0 (k - 1) m). set (b := substring (k - 1) 1 m).
  assert (m = a ++ b) as Hab.
  { subst a b. rewrite (substring_parts m (k - 1)) at 1 by lia.
    now replace (String.length m - (k - 1))%nat with 1%nat by (subst k; lia). }
  assert (allDigits a = true) as Ha by now apply allDigits_substring.
  assert (allDigits b = true) as Hb by now apply allDigits_substring.
  assert (String.length a = (k - 1)%nat) as La
    by (apply length_substring; lia).
  assert (String.length b = 1%nat) as Lb
    by (apply length_substring; subst k; lia).
  destruct (digitRun_allDigits a Ha 0%Z 0%nat) as (whole & Hw & _).
  destruct b as [|c [|? ?]]; try discriminate Lb.
  cbn [allDigits] in Hb. rewrite andb_true_r in Hb.
  destruct (isDigit_digitValue c Hb) as (tenth & Ht & _).
  exists whole, tenth. split.
  - unfold parseDecimal.
    destruct a as [|c0 a0] eqn:Ea; [cbn in La; lia|].
    cbn [allDigits] in Ha. apply andb_true_iff in Ha as [Hc0 _].
    change (String c0 a0 ++ "." ++ String c "")
      with (String c0 (a0 ++ "." ++ String c "")).
    cbv beta iota. rewrite (not_minus c0 (a0 ++ "." ++ String c "") Hc0).
    change (String c0 (a0 ++ "." ++ String c ""))
      with (String c0 a0 ++ "." ++ String c "").
    rewrite Hw, La. cbn [digitRun append].
    change (digitValue ".") with (@None Z). cbv beta iota.
    destruct (0 + (k - 1))%nat as [|count] eqn:Ek; [lia|].
    cbn [digitRun]. rewrite Ht. reflexivity.
  - rewrite Hab, Hw. cbn [digitRun]. now rewrite Ht.
Qed.

Lemma digitRun_zeros (j : nat) (s : string) (count : nat) :
  fst (fst (digitRun (JS.zeros j ++ s) 0%Z count))
  = fst (fst (digitRun s 0%Z (count + j))).
Proof.
  revert count. induction j as [|j IH]; intros count.
  - cbn. now rewrite Nat.add_0_r.
  - cbn [JS.zeros append digitRun].
    change (digitValue "0") with (Some 0%Z). cbv beta iota.
    change (10 * 0 + 0)%Z with 0%Z. rewrite IH. now rewrite Nat.add_succ_r.
Qed.

(** Below 10^21 the text of [toFixed(1)] reads back as the nearest tenth,
    the larger one on a tie. *)
Lemma toFixed_1_reads (toStringLarge : Q -> string) (x : Q) :
  0 <= x -> x < inject_Z (10 ^ 21) ->
  exists v,
    parseDecimal (JS.toFixed toStringLarge 1 x) = JS.Finite v /\
    v == inject_Z (Qfloor (x * 10 + 0.5)) / 10.
Proof.
  intros H0 Hx. unfold JS.toFixed.
  assert (Qle_bool 0 x = true) as -> by now apply Qle_bool_iff.
  assert (Qle_bool (inject_Z (10 ^ 21)) x = false) as ->.
  { apply not_true_iff_false. rewrite Qle_bool_iff. lra. }
  change (inject_Z (10 ^ Z.of_nat 1)) with 10.
  set (n := Qfloor (x * 10 + 0.5)).
  assert (0 <= n)%Z as Hn.
  { change 0%Z with (Qfloor 0). apply Qfloor_resp_le. lra. }
  set (m0 := JS.string_of_N (Z.to_N n)).
  destruct (string_of_N_digits (Z.to_N n)) as [Hd Hl]. fold m0 in Hd, Hl.
  assert (forall count, fst (fst (digitRun m0 0%Z count)) = n) as Hv0.
  { intros count. subst m0.
    now rewrite digitRun_string_of_N, Z2N.id by assumption. }
  set (m := if (String.length m0 <=? 1)%nat then _ else m0).
  assert (allDigits m = true /\ (2 <= String.length m)%nat /\
          fst (fst (digitRun m 0%Z 0)) = n) as (Hm & Hk & Hv).
  { subst m. destruct (String.length m0 <=? 1)%nat eqn:E.
    - apply Nat.leb_le in E.
      rewrite allDigits_app, allDigits_zeros, Hd.
      rewrite length_append, length_zeros, digitRun_zeros, Hv0.
      repeat split; lia.
    - apply Nat.leb_gt in E. rewrite Hv0. repeat split; auto; lia. }
  destruct (parseDecimal_tenths m Hm Hk) as (whole & tenth & Hp & Hsum).
  eexists. split; [exact Hp|].
  rewrite Hv in Hsum. rewrite <- Hsum.
  rewrite inject_Z_plus, inject_Z_mult.
  change (inject_Z (10 ^ Z.of_nat 1)) with 10. change (inject_Z 10) with 10.
  field.
Qed.

(** *** Doubles near zero *)

Lemma roundHalfEven_nonneg (x : Q) : 0 <= x -> (0 <= JS.roundHalfEven x)%Z.
Proof.
  intros H. unfold JS.roundHalfEven.
  assert (0 <= Qfloor x)%Z as Hf
    by (change 0%Z with (Qfloor 0); now apply Qfloor_resp_le).
  destruct (Qcompare _ _); [destruct (Z.even _)| |]; lia.
Qed.

Lemma double_nonneg (x : Q) : 0 <= x -> 0 <= JS.double x.
Proof.
  intros H. destruct (Qlt_le_dec 0 x) as [Hpos|Hzero].
  - rewrite (double_positive x Hpos).
    set (e := Z.max _ _). pose proof (pow2_pos e) as Hp.
    apply Qmult_le_0_compat; [|lra].
    change 0 with (inject_Z 0). rewrite <- Zle_Qle.
    apply roundHalfEven_nonneg. apply Qle_shift_div_l; lra.
  - unfold JS.double. assert (x == 0) as Hx by lra.
    apply Qeq_alt in Hx. rewrite Hx. lra.
Qed.

(** Below the normal range a value is rounded to a multiple of 2^-1074,
    which stays far below a hundredth. *)
Lemma double_tiny (x : Q) :
  0 <= x -> x < 2 ^ (-1022) -> JS.double x < 0.01.
Proof.
  intros H0 Hx. destruct (Qlt_le_dec 0 x) as [Hpos|Hzero].
  - destruct (floorLog2_bounds x Hpos) as [Hlo _].
    assert (JS.floorLog2 x < -1022)%Z as Hfl.
    { apply (Qpower_lt_compat_l_inv 2); [|reflexivity].
      eapply Qle_lt_trans; eassumption. }
    rewrite (double_positive x Hpos).
    replace (Z.max (JS.floorLog2 x - 52) (-1074)) with (-1074)%Z by lia.
    pose proof (pow2_pos (-1074)) as Hp.
    assert (2 ^ (-1074) <= 2 ^ (-8)) as Hp8
      by (apply Qpower_le_compat_l; [lia|discriminate]).
    assert (2 ^ (-1022) <= 2 ^ (-8)) as Hx8
      by (apply Qpower_le_compat_l; [lia|discriminate]).
    change (2 ^ (-8)) with (1 # 256) in Hp8, Hx8.
    pose proof (roundHalfEven_near (x / 2 ^ (-1074))) as Hr.
    apply Qabs_Qle_condition in Hr as [_ Hr].
    set (p := 2 ^ (-1074)) in *. set (bound := 2 ^ (-1022)) in *.
    set (r := inject_Z (JS.roundHalfEven (x / p))) in *.
    assert (r * p <= (x / p + 0.5) * p) as Hrp
      by (apply Qmult_le_compat_r; lra).
    assert ((x / p + 0.5) * p == x + 0.5 * p) as Hxp by (field; lra).
    lra.
  - unfold JS.double. assert (x == 0) as Hx' by lra.
    apply Qeq_alt in Hx'. rewrite Hx'. reflexivity.
Qed.

(** The text of a quotient: it reads back as a number within half a tenth
    of the quotient, up to the rounding of the division. *)
Lemma printed_tenth (toStringLarge : Q -> string) (y : Q) :
  0 <= y -> y < inject_Z (10 ^ 20) ->
  exists v,
    parseDecimal (JS.toFixed toStringLarge 1 (JS.double y)) = JS.Finite v /\
    Qabs (v - y) <= 0.05 + y * (1 # 9007199254740992) /\
    oneDecimal (JS.toFixed toStringLarge 1 (JS.double y)).
Proof.
  intros H0 Hy.
  change (inject_Z (10 ^ 20)) with 100000000000000000000 in Hy.
  pose proof (double_nonneg y H0) as Hq0.
  assert (JS.double y < inject_Z (10 ^ 21) /\
          Qabs (JS.double y - y) <= y * (1 # 9007199254740992) \/
          JS.double y < 0.01 /\ y < 0.01) as Hq.
  { destruct (Qlt_le_dec y (2 ^ (-1022))) as [Htiny|Hnormal].
    - right. split; [now apply double_tiny|].
      assert (2 ^ (-1022) <= 2 ^ (-8)) as Hx8
        by (apply Qpower_le_compat_l; [lia|discriminate]).
      change (2 ^ (-8)) with (1 # 256) in Hx8. lra.
    - left. pose proof (double_error y Hnormal) as He. split; [|exact He].
      apply Qabs_Qle_condition in He as [_ He].
      change (inject_Z (10 ^ 21)) with 1000000000000000000000. lra. }
  set (q := JS.double y) in *.
  assert (q < inject_Z (10 ^ 21)) as Hq21.
  { change (inject_Z (10 ^ 21)) with 1000000000000000000000.
    destruct Hq as [[Hq _]|[Hq _]]; [exact Hq|lra]. }
  destruct (toFixed_1_reads toStringLarge q Hq0 Hq21) as (v & Hv & Hval).
  exists v. split; [exact Hv|]. split.
  - pose proof (Qfloor_le (q * 10 + 0.5)) as Hlo.
    pose proof (Qlt_floor (q * 10 + 0.5)) as Hhi.
    rewrite inject_Z_plus in Hhi. change (inject_Z 1) with 1 in Hhi.
    unfold Qdiv in Hval. change (/ 10) with (1 # 10) in Hval.
    set (n := inject_Z (Qfloor (q * 10 + 0.5))) in *.
    destruct Hq as [[_ He]|[Hq Hy']].
    + apply Qabs_Qle_condition in He as [He1 He2].
      apply Qabs_Qle_condition. split; lra.
    + assert (Qfloor (q * 10 + 0.5) = 0%Z) as Hn
        by (apply Qfloor_unique; change (inject_Z 0) with 0; lra).
      subst n. rewrite Hn in Hval. change (inject_Z 0) with 0 in Hval.
      apply Qabs_Qle_condition. split; lra.
  - apply toFixed_1_oneDecimal. rewrite Qabs_pos by assumption. exact Hq21.
Qed.

(** The constant [1609.34] as a double, inverted. *)
Lemma mile_inverse :
  (100 # 160934) * (1 - (1 # 4503599627370496)) <= / JS.double 1609.34 /\
  / JS.double 1609.34 <= (100 # 160934) * (1 + (1 # 4503599627370496)).
Proof. split; apply Qle_bool_imp_le; vm_compute; reflexivity. Qed.

Section Printed.
Variable Number_toString : Q -> string.

Lemma kilometers_text (d : Q) :
  0 <= d -> d < inject_Z (10 ^ 21) ->
  exists kilometers,
    parseDecimal (JS.toFixed Number_toString 1 (JS.div d 1000))
    = JS.Finite kilometers /\
    Qabs (kilometers - d / 1000) <= 0.05 + d / inject_Z (10 ^ 18) /\
    oneDecimal (JS.toFixed Number_toString 1 (JS.div d 1000)).
Proof.
  intros H0 Hd. unfold JS.div.
  change (inject_Z (10 ^ 21)) with 1000000000000000000000 in Hd.
  change (inject_Z (10 ^ 18)) with 1000000000000000000.
  assert (d / 1000 == d * (1 # 1000)) as Hy by reflexivity.
  destruct (printed_tenth Number_toString (d / 1000)) as (v & Hv & Hnear & H1).
  - rewrite Hy. lra.
  - rewrite Hy. change (inject_Z (10 ^ 20)) with 100000000000000000000. lra.
  - exists v. split; [exact Hv|]. split; [|exact H1].
    apply Qabs_Qle_condition in Hnear as [Hn1 Hn2].
    unfold Qdiv in *. change (/ 1000) with (1 # 1000) in *.
    change (/ 1000000000000000000) with (1 # 1000000000000000000).
    apply Qabs_Qle_condition. split; lra.
Qed.

Lemma miles_text (d : Q) :
  0 <= d -> d < inject_Z (10 ^ 21) ->
  exists miles,
    parseDecimal
      (JS.toFixed Number_toString 1 (JS.div d (JS.double 1609.34)))
    = JS.Finite miles /\
    Qabs (miles - d / 1609.34) <= 0.05 + d / inject_Z (10 ^ 18) /\
    oneDecimal (JS.toFixed Number_toString 1 (JS.div d (JS.double 1609.34))).
Proof.
  intros H0 Hd. unfold JS.div.
  change (inject_Z (10 ^ 21)) with 1000000000000000000000 in Hd.
  change (inject_Z (10 ^ 18)) with 1000000000000000000.
  destruct mile_inverse as [Hlo Hhi].
  set (inverse := / JS.double 1609.34) in *.
  assert (d / JS.double 1609.34 == inverse * d) as Hy
    by (unfold Qdiv; fold inverse; ring).
  pose proof (Qmult_le_compat_r _ _ d Hlo H0) as Hlow.
  pose proof (Qmult_le_compat_r _ _ d Hhi H0) as Hhigh.
  set (y := inverse * d) in *.
  destruct (printed_tenth Number_toString (d / JS.double 1609.34))
    as (v & Hv & Hnear & H1).
  - rewrite Hy. lra.
  - rewrite Hy. change (inject_Z (10 ^ 20)) with 100000000000000000000. lra.
  - exists v. split; [exact Hv|]. split; [|exact H1].
    rewrite Hy in Hnear.
    apply Qabs_Qle_condition in Hnear as [Hn1 Hn2].
    unfold Qdiv. change (/ 1609.34) with (100 # 160934).
    change (/ 1000000000000000000) with (1 # 1000000000000000000).
    apply Qabs_Qle_condition. split; lra.
Qed.

End Printed.

(** C9.  The context block of the empty list is the non-empty sentence
    "No nearby businesses available."; the block of a non-empty list is one
    entry per business, in order, put together with newlines between them,
    and the lines of the block are the lines of the entries.  The k-th
    entry (from 0) is the line [N. name - description (MI mi / KM km away)],
    a newline, and the sub-line [   Website: url].  N is a run of digits
    that reads back as k+1.  MI and KM are the distance divided by 1609.34
    and by 1000, rendered by [toFixed(1)] with exactly one decimal place;
    for a distance from 0 to below 10^21 meters they read back as numbers
    within 0.05 of the two quotients (up to the rounding of the division,
    below distance / 10^18), and when name, description and address hold no
    newline the entry is exactly these two lines. *)
Theorem context_block_format (Number_toString : Q -> string) :
  Chat.formatAdsContext Number_toString []
  = "No nearby businesses available." /\
  "No nearby businesses available." <> "" /\
  forall (first : Match) (rest : list Match),
  exists entries,
    Chat.formatAdsContext Number_toString (first :: rest)
    = String.concat nl entries /\
    linesOf (Chat.formatAdsContext Number_toString (first :: rest))
    = flat_map linesOf entries /\
    List.length entries = List.length (first :: rest) /\
    forall k m,
      nth_error (first :: rest) k = Some m ->
      exists index mi km,
        let line :=
          index ++ ". " ++ businessName (ad m) ++ " - " ++
          description (ad m) ++ " (" ++ mi ++ " mi / " ++ km ++ " km away)" in
        let subline := "   Website: " ++ websiteUrl (ad m) in
        nth_error entries k = Some (line ++ nl ++ subline) /\
        allDigits index = true /\
        parseDecimal index = JS.Finite (inject_Z (Z.of_nat (k + 1))) /\
        mi = JS.toFixed Number_toString 1
               (JS.div (distance m) (JS.double 1609.34)) /\
        km = JS.toFixed Number_toString 1 (JS.div (distance m) 1000) /\
        (Qabs (JS.div (distance m) (JS.double 1609.34)) < inject_Z (10 ^ 21) ->
         oneDecimal mi) /\
        (Qabs (JS.div (distance m) 1000) < inject_Z (10 ^ 21) ->
         oneDecimal km) /\
        (0 <= distance m -> distance m < inject_Z (10 ^ 21) ->
         (exists miles kilometers,
            parseDecimal mi = JS.Finite miles /\
            parseDecimal km = JS.Finite kilometers /\
            Qabs (miles - distance m / 1609.34)
            <= 0.05 + distance m / inject_Z (10 ^ 18) /\
            Qabs (kilometers - distance m / 1000)
            <= 0.05 + distance m / inject_Z (10 ^ 18)) /\
         (singleLine (businessName (ad m)) = true ->
          singleLine (description (ad m)) = true ->
          singleLine (websiteUrl (ad m)) = true ->
          linesOf (line ++ nl ++ subline) = [line; subline])).
Proof.
  split; [reflexivity|]. split; [discriminate|].
  intros first rest.
  exists (JS.mapi (Chat.formatAd Number_toString) (first :: rest)).
  split; [reflexivity|]. split; [apply linesOf_concat|].
  split; [apply map_from_length|].
  intros k m Hm.
  exists (JS.string_of_nat (k + 1)). do 2 eexists. cbv zeta.
  split; [|split; [|split; [|split; [reflexivity|split; [reflexivity|]]]]].
  - unfold JS.mapi. rewrite map_from_nth_error, Hm. cbn [option_map Nat.add].
    unfold Chat.formatAd, Chat.toFixed. now rewrite !append_assoc.
  - apply string_of_N_digits.
  - unfold JS.string_of_nat. now rewrite parseDecimal_string_of_N, nat_N_Z.
  - split; [apply toFixed_1_oneDecimal|]. split; [apply toFixed_1_oneDecimal|].
    intros H0 Hd.
    destruct (miles_text Number_toString (distance m) H0 Hd)
      as (miles & Hmi & Hmiles & Dmi).
    destruct (kilometers_text Number_toString (distance m) H0 Hd)
      as (kilometers & Hkm & Hkilometers & Dkm).
    split; [now exists miles, kilometers|].
    intros Hname Hdescription Hurl.
    rewrite linesOf_broken, !linesOf_singleLine; [reflexivity| |].
    + now rewrite singleLine_app, Hurl.
    + destruct (string_of_N_digits (N.of_nat (k + 1))) as [Hindex _].
      unfold JS.string_of_nat.
      rewrite !singleLine_app, Hname, Hdescription.
      rewrite (allDigits_singleLine _ Hindex).
      now rewrite (oneDecimal_singleLine _ Dmi), (oneDecimal_singleLine _ Dkm).
Qed.

(** The block of two businesses 150 m and 1234.4 m away. *)
Example context_block_of_two :
  Chat.formatAdsContext (fun _ => "1e+21")
    [ {| ad := adAt "b" 150 5000 1 true; distance := 150 |};
      {| ad := cafeA; distance := 1234.4 |} ]
  = "1. b - coffee (0.1 mi / 0.1 km away)" ++ nl ++
    "   Website: https://example.com" ++ nl ++
    "2. a - coffee (0.8 mi / 1.2 km away)" ++ nl ++
    "   Website: https://example.com".
Proof. vm_compute. reflexivity. Qed.

(** * Further properties of the two handlers *)

(** ** GET /api/ads/recommendations as a whole *)

Lemma falsy_false (param : option string) :
  JS.falsy param = false -> exists s, param = Some s /\ s <> "".
Proof.
  destruct param as [[|c s]|]; try discriminate.
  intros _. eexists. split; [reflexivity|discriminate].
Qed.

Section Recommendations.
Variable parseFloat : string -> JS.number.
Variable calculateDistance : Q -> Q -> Q -> Q -> Q.
Variable w : World.

Abbreviation recommendations :=
  (App.recommendations parseFloat calculateDistance w).

(** The ranked matches of an accepted query. *)
Abbreviation ranked latitude longitude :=
  (App.matchingAds calculateDistance
     (JS.valueOf (parseFloat latitude)) (JS.valueOf (parseFloat longitude))
     (match adsFile w with Some ads => ads | None => [] end)).

Abbreviation requestOf latitude longitude :=
  (request (JS.valueOf (parseFloat latitude))
           (JS.valueOf (parseFloat longitude))).

Lemma recommendations_run (latitude longitude : string) :
  JS.falsy (Some latitude) || JS.falsy (Some longitude) = false ->
  validCoordinates (parseFloat latitude) (parseFloat longitude) = true ->
  recommendations (Some latitude) (Some longitude)
  = (ReadAdsFile :: map (requestOf latitude longitude)
                        (ranked latitude longitude),
     Return
       (match ranked latitude longitude with
        | [] => App.Recommendations [] 0 (Some "No ads available in your area")
        | _ :: _ =>
          App.Recommendations
            (JS.map_from (fun m i => App.entry m (outcomeDuration (osrm w i)))
               0 (ranked latitude longitude))
            (List.length (ranked latitude longitude)) None
        end)).
Proof.
  intros Hp Hv. rewrite valid_coordinates_accepted by assumption.
  rewrite App_getAds_run. unfold bind at 1. cbn zeta.
  destruct (ranked latitude longitude) as [|m l] eqn:E; [reflexivity|].
  rewrite <- E. replace (0 <? List.length _)%nat with true
    by (rewrite E; reflexivity).
  unfold App.adsWithDuration, JS.mapi. rewrite Promise_all_withDuration.
  cbn. rewrite app_nil_r, map_from_length. reflexivity.
Qed.

(** Every query falls in one of three cases. *)
Lemma recommendations_cases (latitude longitude : option string) :
  (JS.falsy latitude || JS.falsy longitude = true) \/
  (exists lat lng,
      latitude = Some lat /\ longitude = Some lng /\
      JS.falsy (Some lat) || JS.falsy (Some lng) = false /\
      validCoordinates (parseFloat lat) (parseFloat lng) = false) \/
  (exists lat lng,
      latitude = Some lat /\ longitude = Some lng /\
      JS.falsy (Some lat) || JS.falsy (Some lng) = false /\
      validCoordinates (parseFloat lat) (parseFloat lng) = true).
Proof.
  destruct (JS.falsy latitude || JS.falsy longitude) eqn:E; [now left|].
  right. apply orb_false_iff in E as [E1 E2].
  destruct (falsy_false _ E1) as (lat & -> & _).
  destruct (falsy_false _ E2) as (lng & -> & _).
  destruct (validCoordinates (parseFloat lat) (parseFloat lng)) eqn:V;
    [right|left]; exists lat, lng; rewrite E1, E2; auto.
Qed.

Lemma invalid_coordinates_run (latitude longitude : string) :
  validCoordinates (parseFloat latitude) (parseFloat longitude) = false ->
  exists error message,
    recommendations (Some latitude) (Some longitude)
    = ([], Return (App.BadRequest error message)).
Proof.
  intros Hv. unfold App.recommendations.
  destruct (JS.falsy (Some latitude) || JS.falsy (Some longitude));
    [do 2 eexists; reflexivity|].
  cbn [App.asString]. rewrite validCoordinates_checks in Hv.
  destruct (JS.isNaN (parseFloat latitude) || JS.isNaN (parseFloat longitude));
    [do 2 eexists; reflexivity|].
  cbn [negb andb] in Hv. rewrite negb_false_iff in Hv. rewrite Hv.
  do 2 eexists; reflexivity.
Qed.

(** X1.  With a catalog file that is missing, unreadable, not JSON, or an
    array of ad records (the states of [adsFile]), the route answers every
    query: whatever the parameters and whatever the routing service does
    for each ad (no answer in time, a failed request, a body that is not
    JSON, an answer without a route), the handler returns a reply and
    throws nothing.  A 400 reply comes with no effect performed; in a 200
    reply [total] is the number of ads listed, and the message is present
    exactly when the list is empty.  A file that parses to something other
    than an array of records is outside this statement: [getAds] returns
    it as it is, and [ads.filter] or [ad.active] then throws outside any
    [try]. *)
Theorem recommendations_reply_on_typed_catalog (latitude longitude : option string) :
  exists reply,
    completion (recommendations latitude longitude) = Return reply /\
    match reply with
    | App.BadRequest _ _ => trace (recommendations latitude longitude) = []
    | App.Recommendations ads total message =>
      total = List.length ads /\
      (ads = [] -> message = Some "No ads available in your area") /\
      (ads <> [] -> message = None)
    end.
Proof.
  destruct (recommendations_cases latitude longitude)
    as [H|[(lat & lng & -> & -> & Hp & Hv)|(lat & lng & -> & -> & Hp & Hv)]].
  - rewrite missing_coordinates_rejected by assumption.
    eexists. split; reflexivity.
  - destruct (invalid_coordinates_run lat lng Hv) as (e & m & ->).
    eexists. split; reflexivity.
  - rewrite recommendations_run by assumption.
    destruct (ranked lat lng) as [|m l] eqn:E.
    + eexists. split; [reflexivity|]. cbn. intuition congruence.
    + eexists. split; [reflexivity|]. cbn [List.length].
      split; [now rewrite map_from_length|]. split; [discriminate|reflexivity].
Qed.

(** X2.  ads.json is read exactly when both parameters are present and the
    parsed coordinates are valid, and then exactly once, before anything
    else. *)
Theorem catalog_read_iff_valid_query (latitude longitude : option string) :
  (In ReadAdsFile (trace (recommendations latitude longitude)) <->
   JS.falsy latitude || JS.falsy longitude = false /\
   validCoordinates (parseFloat (App.asString latitude))
                    (parseFloat (App.asString longitude)) = true) /\
  (In ReadAdsFile (trace (recommendations latitude longitude)) ->
   exists requests,
     trace (recommendations latitude longitude) = ReadAdsFile :: requests /\
     ~ In ReadAdsFile requests).
Proof.
  destruct (recommendations_cases latitude longitude)
    as [H|[(lat & lng & -> & -> & Hp & Hv)|(lat & lng & -> & -> & Hp & Hv)]].
  - rewrite missing_coordinates_rejected by assumption. rewrite H. cbn.
    split; [split; [tauto|intros [? _]; discriminate]|tauto].
  - destruct (invalid_coordinates_run lat lng Hv) as (e & m & ->).
    cbn [App.asString]. rewrite Hv. cbn.
    split; [split; [tauto|intros [_ ?]; discriminate]|tauto].
  - rewrite recommendations_run by assumption. cbn [App.asString trace fst].
    split; [split; [auto|intros _; now left]|].
    intros _. eexists. split; [reflexivity|].
    rewrite in_map_iff. intros (m & Hm & _). discriminate Hm.
Qed.

Lemma entries_requests (userLat userLng : Q) (l : list Match) (index : nat) :
  map (fun e => OsrmRequest userLng userLat
                  (App.entry_longitude e) (App.entry_latitude e))
      (JS.map_from (fun m i => App.entry m (outcomeDuration (osrm w i)))
         index l)
  = map (request userLat userLng) l.
Proof.
  revert index. induction l as [|m l IH]; intros index; [reflexivity|].
  cbn. now rewrite IH.
Qed.

(** X3.  For an accepted query the handler reads ads.json once and then
    issues exactly one routing request per ad it lists, in the order of the
    list, each from the user's coordinates to that ad's coordinates
    (longitude first); it performs no other effect. *)
Theorem one_routing_request_per_listed_ad (latitude longitude : string) :
  JS.falsy (Some latitude) || JS.falsy (Some longitude) = false ->
  validCoordinates (parseFloat latitude) (parseFloat longitude) = true ->
  exists ads total message,
    recommendations (Some latitude) (Some longitude)
    = (ReadAdsFile ::
       map (fun e => OsrmRequest (JS.valueOf (parseFloat longitude))
                       (JS.valueOf (parseFloat latitude))
                       (App.entry_longitude e) (App.entry_latitude e)) ads,
       Return (App.Recommendations ads total message)).
Proof.
  intros Hp Hv. rewrite recommendations_run by assumption.
  destruct (ranked latitude longitude) as [|m l] eqn:E.
  - exists [], 0%nat, (Some "No ads available in your area"). reflexivity.
  - do 3 eexists. rewrite entries_requests. reflexivity.
Qed.

End Recommendations.

Lemma one_routing_request_per_listed_ad_witness :
  exists ads total message,
    App.recommendations parseDecimal meridianDistance
      (mixedWorld (Some [cafeA; cafeB; closed])) (Some "0") (Some "0")
    = (ReadAdsFile ::
       map (fun e => OsrmRequest (JS.valueOf (parseDecimal "0"))
                       (JS.valueOf (parseDecimal "0"))
                       (App.entry_longitude e) (App.entry_latitude e)) ads,
       Return (App.Recommendations ads total message)).
Proof.
  apply (one_routing_request_per_listed_ad parseDecimal meridianDistance
           (mixedWorld (Some [cafeA; cafeB; closed])) "0" "0");
    reflexivity.
Defined.

(** X4.  When ads.json cannot be read or parsed, an accepted query is
    answered with status 200, an empty list, total 0 and the message
    'No ads available in your area'; one read is attempted and no routing
    request is issued. *)
Theorem unreadable_catalog_gives_empty_recommendations
  (parseFloat : string -> JS.number)
  (calculateDistance : Q -> Q -> Q -> Q -> Q)
  (w : World) (latitude longitude : string) :
  adsFile w = None ->
  JS.falsy (Some latitude) || JS.falsy (Some longitude) = false ->
  validCoordinates (parseFloat latitude) (parseFloat longitude) = true ->
  App.recommendations parseFloat calculateDistance w
    (Some latitude) (Some longitude)
  = ([ReadAdsFile],
     Return (App.Recommendations [] 0 (Some "No ads available in your area"))).
Proof.
  intros Hf Hp Hv. rewrite recommendations_run by assumption.
  rewrite Hf. reflexivity.
Qed.

Lemma unreadable_catalog_gives_empty_recommendations_witness :
  App.recommendations parseDecimal meridianDistance (quietWorld None)
    (Some "47.6062") (Some "-122.3321")
  = ([ReadAdsFile],
     Return (App.Recommendations [] 0 (Some "No ads available in your area"))).
Proof.
  apply (unreadable_catalog_gives_empty_recommendations parseDecimal
           meridianDistance (quietWorld None) "47.6062" "-122.3321");
    reflexivity.
Defined.

(** X5.  A query without a latitude or without a longitude (absent or the
    empty string) is answered 400 'Missing required parameters' before
    anything is parsed or read. *)
Theorem missing_parameter_rejected
  (parseFloat : string -> JS.number)
  (calculateDistance : Q -> Q -> Q -> Q -> Q)
  (w : World) (latitude longitude : option string) :
  latitude = None \/ latitude = Some "" \/
  longitude = None \/ longitude = Some "" ->
  App.recommendations parseFloat calculateDistance w latitude longitude
  = ([], Return (App.BadRequest "Missing required parameters"
                   "Both latitude and longitude are required")).
Proof.
  intros H. unfold App.recommendations.
  assert (JS.falsy latitude || JS.falsy longitude = true) as ->;
    [|reflexivity].
  destruct H as [-> | [-> | [-> | ->]]]; cbn; rewrite ?orb_true_r; reflexivity.
Qed.

Lemma missing_parameter_rejected_witness :
  App.recommendations parseDecimal meridianDistance (quietWorld (Some [edge]))
    (Some "47.6") None
  = ([], Return (App.BadRequest "Missing required parameters"
                   "Both latitude and longitude are required")).
Proof.
  apply (missing_parameter_rejected parseDecimal meridianDistance
           (quietWorld (Some [edge])) (Some "47.6") None).
  right. right. left. reflexivity.
Defined.

(** ** The match set and its ranking *)

(** Two successive [.filter] calls keep what both predicates accept. *)
Lemma filter_both {A : Type} (l : list A) (keep1 keep2 : A -> bool) :
  filter (fun x => keep1 x && keep2 x) l = filter keep2 (filter keep1 l).
Proof.
  induction l as [|x l IH]; [reflexivity|].
  cbn. destruct (keep1 x); cbn; [destruct (keep2 x)|]; congruence.
Qed.

Lemma filter_shortens {A : Type} (l : list A) (keep : A -> bool) :
  (List.length (filter keep l) <= List.length l)%nat.
Proof.
  induction l as [|x l IH]; [reflexivity|].
  cbn. destruct (keep x); cbn; lia.
Qed.

(** Filtering keeps keys distinct. *)
Lemma filter_keeps_distinct {K A : Type} (key : A -> K) (l : list A)
  (keep : A -> bool) :
  NoDup (map key l) -> NoDup (map key (filter keep l)).
Proof.
  induction l as [|x l IH]; [trivial|].
  cbn. intros H. inversion H as [|? ? Hx Hl]; subst.
  destruct (keep x); [|now apply IH].
  cbn. constructor; [|now apply IH].
  rewrite in_map_iff in *. intros (y & Hy & Hin). apply Hx.
  exists y. split; [exact Hy|]. now apply filter_In in Hin.
Qed.

Lemma firstn_NoDup {A : Type} (l : list A) :
  NoDup l -> forall n, NoDup (firstn n l).
Proof.
  intros H n. rewrite <- (firstn_skipn n l) in H.
  now apply NoDup_app_remove_r in H.
Qed.

Section MatchSetFacts.
Variable calculateDistance : Q -> Q -> Q -> Q -> Q.
Variables userLat userLng : Q.

Abbreviation raw ad :=
  (calculateDistance userLat userLng (latitude ad) (longitude ad)).
Abbreviation matchingAds := (App.matchingAds calculateDistance userLat userLng).

(** X6.  The distance reported for a match is a whole number of meters at
    most half a meter away from the computed distance, and it is not
    negative when the computed distance is not. *)
Theorem reported_distance_within_half_meter (ads : list Ad) :
  Forall (fun m =>
            (exists n : Z, distance m = inject_Z n) /\
            Qabs (distance m - raw (ad m)) <= 0.5 /\
            (0 <= raw (ad m) -> 0 <= distance m))
         (matchingAds ads).
Proof.
  eapply Forall_impl; [|apply matchingAds_rounded].
  intros m ->. pose proof (Math_round_bounds (raw (ad m))) as [Hlo Hhi].
  split; [eexists; reflexivity|]. split.
  - apply Qabs_case; intros _; lra.
  - intros H0. unfold JS.Math_round.
    apply Qle_trans with (inject_Z (Qfloor 0)); [apply Qle_refl|].
    rewrite <- Zle_Qle. apply Qfloor_resp_le. lra.
Qed.

(** X7.  The number of matches is the number of active catalog records whose
    rounded distance is within their radius: no match is lost or doubled by
    the ranking, and there are never more matches than records. *)
Theorem match_count (ads : list Ad) :
  List.length (matchingAds ads)
  = List.length
      (filter (fun ad => active ad &&
                         Qle_bool (JS.Math_round (raw ad)) (radius ad)) ads) /\
  (List.length (matchingAds ads) <= List.length ads)%nat.
Proof.
  assert (List.length (matchingAds ads)
          = List.length
              (filter (fun ad => active ad &&
                         Qle_bool (JS.Math_round (raw ad)) (radius ad)) ads))
    as H.
  { unfold App.matchingAds. rewrite sort_length, filter_map_commute.
    rewrite length_map, <- filter_both. reflexivity. }
  split; [exact H|]. rewrite H. apply filter_shortens.
Qed.

(** X8.  Matches that already stand in rank order are left exactly as they
    are by the ranking; in particular ranking a ranked list again changes
    nothing. *)
Theorem rank_keeps_ranked_input (matches : list Match) :
  (StronglySorted ranksBefore matches ->
   JS.sort App.compareFn matches = matches) /\
  JS.sort App.compareFn (JS.sort App.compareFn matches)
  = JS.sort App.compareFn matches.
Proof.
  assert (forall l, StronglySorted ranksBefore l ->
                    JS.sort App.compareFn l = l) as H.
  { intros l Hl. symmetry. apply rank_unique; auto. }
  split; [apply H|]. apply H, rank_sorted.
Qed.

(** X9.  If the ids of the catalog are pairwise distinct, no id occurs
    twice among the matches. *)
Theorem matches_have_distinct_ids (ads : list Ad) :
  NoDup (map id ads) -> NoDup (map (fun m => id (ad m)) (matchingAds ads)).
Proof.
  intros H. unfold App.matchingAds.
  eapply Permutation_NoDup;
    [apply Permutation_map, sort_Permutation|].
  apply filter_keeps_distinct. rewrite map_map. cbn.
  now apply filter_keeps_distinct.
Qed.

(** X10.  A match of the recommendation route whose radius is at most
    19999.5 m is also within the 20 km ceiling of the conversational path:
    it is a candidate of [getNearbyAds] before the cut to five. *)
Theorem match_is_within_chat_ceiling (ads : list Ad) (a : Ad) :
  radius a <= 19999.5 ->
  In (App.withDistance calculateDistance userLat userLng a) (matchingAds ads) ->
  In (Chat.withDistance calculateDistance userLat userLng a)
     (inReach calculateDistance userLat userLng Chat.maxDistance_default ads).
Proof.
  intros Hr Hin. apply matchingAds_In in Hin as (a' & Hin & Hact & Hle & Heq).
  assert (a = a') as <- by (injection Heq; auto).
  apply inReach_In. exists a. repeat split; try assumption.
  pose proof (Math_round_bounds (raw a)) as [Hlo _].
  unfold Chat.maxDistance_default. lra.
Qed.

End MatchSetFacts.

Lemma rank_keeps_ranked_input_witness :
  JS.sort App.compareFn
    [App.withDistance meridianDistance 0 0 cafeA;
     App.withDistance meridianDistance 0 0 edge]
  = [App.withDistance meridianDistance 0 0 cafeA;
     App.withDistance meridianDistance 0 0 edge].
Proof.
  apply (proj1 (rank_keeps_ranked_input _)).
  apply SSorted_cons; [apply SSorted_cons; constructor|].
  constructor; [|constructor].
  right. split; [reflexivity|]. apply Qle_bool_iff. reflexivity.
Defined.

Lemma matches_have_distinct_ids_witness :
  NoDup (map (fun m => id (ad m))
           (App.matchingAds meridianDistance 0 0 [cafeA; cafeB; closed])).
Proof.
  apply (matches_have_distinct_ids meridianDistance 0 0 [cafeA; cafeB; closed]).
  repeat constructor; cbn; intuition discriminate.
Defined.

Lemma match_is_within_chat_ceiling_witness :
  In (Chat.withDistance meridianDistance 0 0 cafeA)
     (inReach meridianDistance 0 0 Chat.maxDistance_default [cafeA; cafeB]).
Proof.
  apply (match_is_within_chat_ceiling meridianDistance 0 0 [cafeA; cafeB] cafeA).
  - apply Qle_bool_iff. reflexivity.
  - left. reflexivity.
Defined.

(** ** POST /api/chat as a whole *)

Lemma or_else_truthy (a b : option string) :
  JS.falsy b = false -> JS.falsy (JS.or_else a b) = false.
Proof. unfold JS.or_else. destruct (JS.falsy a) eqn:E; auto. Qed.

Lemma truthy_asString (a : option string) :
  JS.falsy a = false -> App.asString a <> "".
Proof. intros H. destruct (falsy_false a H) as (s & -> & Hs). exact Hs. Qed.

Lemma append_nonempty (a b : string) : a <> "" -> a ++ b <> "".
Proof. destruct a; [contradiction|discriminate]. Qed.

(** X11.  [getCurrentLocationName] never throws and never returns the empty
    string.  Without a location it returns 'Unknown location' and sends
    nothing; with one it sends exactly one geocoding request, and a request
    that fails, is answered with a non-success status, or carries no usable
    address field yields 'your area'. *)
Theorem location_name_always_available
  (w : World) (userLocation : option (Q * Q)) :
  exists name,
    Chat.getCurrentLocationName w userLocation
    = (match userLocation with
       | None => []
       | Some (lat, lng) => [NominatimRequest lat lng]
       end, Return name) /\
    name <> "" /\
    (userLocation = None -> name = "Unknown location") /\
    (userLocation <> None ->
     nominatim w = GeocodeFailure \/
     (exists status, nominatim w = GeocodeStatus status) \/
     nominatim w = GeocodeAnswer None \/
     nominatim w = GeocodeAnswer (Some (mkAddress None None None None None)) ->
     name = "your area").
Proof.
  destruct userLocation as [[lat lng]|].
  - unfold Chat.getCurrentLocationName.
    destruct (nominatim w) as [|status|address] eqn:E; cbn.
    + eexists. split; [reflexivity|]. repeat split; discriminate.
    + eexists. split; [reflexivity|]. repeat split; discriminate.
    + set (c := JS.or_else (Chat.field address city) _).
      assert (JS.falsy c = false) as Hc
        by (subst c; repeat apply or_else_truthy; reflexivity).
      eexists. split; [reflexivity|]. split; [|split].
      * destruct (JS.falsy (JS.or_else (Chat.field address state) (Some "")));
          [|apply append_nonempty]; now apply truthy_asString.
      * discriminate.
      * intros _ [H|[[status H]|[H|H]]]; try discriminate H;
          injection H as ->; reflexivity.
  - eexists. split; [reflexivity|]. repeat split; try discriminate.
    intros H; now contradiction H.
Qed.

Section ChatHandler.
Variable calculateDistance : Q -> Q -> Q -> Q -> Q.
Variable Number_toString : Q -> string.
Variables preamble rules : string.
Variable w : World.

Abbreviation handleChatMessage :=
  (Chat.handleChatMessage calculateDistance Number_toString preamble rules w).

(** The prompt sent for a message, given the location name and the
    near-set. *)
Abbreviation promptFor message userLocation conversationHistory name near :=
  (Chat.systemPrompt Number_toString preamble rules name userLocation
     (Chat.formatAdsContext Number_toString near) ++
   nl ++ nl ++ "Conversation history:" ++ nl ++
   Chat.historyLines conversationHistory ++
   nl ++ "User's new message: " ++ message).

Abbreviation apology :=
  "I'm sorry, I'm having trouble right now. Please try again in a moment.".

(** Every run of the handler ends in a reply: a generated text, or the
    500 reply with the apology. *)
Lemma handleChatMessage_reply (message : string)
  (userLocation : option (Q * Q))
  (conversationHistory : list (Chat.Role * string)) :
  exists reply,
    completion (handleChatMessage message userLocation conversationHistory)
    = Return reply /\
    match reply with
    | Chat.ChatReply text _ _ => exists prompt, gemini w prompt = Some text
    | Chat.ServerError error response _ =>
      error = "Failed to process chat message" /\ response = apology
    end.
Proof.
  unfold Chat.handleChatMessage.
  match goal with
  | |- context [try_catch ?m ?h] => destruct m as [t [reply|e]] eqn:E
  end; cbn.
  - exists reply. split; [reflexivity|]. revert E.
    destruct (JS.falsy (GEMINI_API_KEY w)); [discriminate|].
    destruct (location_name_always_available w userLocation)
      as (name & -> & _).
    unfold bind at 1.
    destruct (Chat.getNearbyAds calculateDistance w userLocation
                Chat.maxDistance_default) as [t2 [near|e]];
      [|discriminate].
    unfold bind at 1.
    match goal with
    | |- context [gemini w ?p] => destruct (gemini w p) as [text|] eqn:G
    end; [|discriminate].
    cbn. intros H. injection H as _ <-. eexists. exact G.
  - eexists. split; [reflexivity|]. split; reflexivity.
Qed.

(** X12.  The chat handler answers every request: whatever the request,
    the state of ads.json and the outcomes of the geocoder and of the
    generator, it returns a reply and throws nothing; a 500 reply always
    carries the error 'Failed to process chat message' and the apology
    sentence as its response text. *)
Theorem chat_always_replies (message : string)
  (userLocation : option (Q * Q))
  (conversationHistory : list (Chat.Role * string)) :
  exists reply,
    completion (handleChatMessage message userLocation conversationHistory)
    = Return reply /\
    match reply with
    | Chat.ChatReply _ _ _ => True
    | Chat.ServerError error response _ =>
      error = "Failed to process chat message" /\ response = apology
    end.
Proof.
  destruct (handleChatMessage_reply message userLocation conversationHistory)
    as (reply & Hrun & Hreply).
  exists reply. split; [exact Hrun|].
  destruct reply; [exact I|exact Hreply].
Qed.

(** X13.  Without a configured API key (unset or empty) the chat handler
    answers 500 with the detail 'GEMINI_API_KEY is not configured' and
    performs no effect: no geocoding request, no catalog read, no call of
    the generator. *)
Theorem missing_api_key_is_server_error (message : string)
  (userLocation : option (Q * Q))
  (conversationHistory : list (Chat.Role * string)) :
  GEMINI_API_KEY w = None \/ GEMINI_API_KEY w = Some "" ->
  handleChatMessage message userLocation conversationHistory
  = ([], Return (Chat.ServerError "Failed to process chat message" apology
                   "GEMINI_API_KEY is not configured")).
Proof.
  intros H. unfold Chat.handleChatMessage.
  assert (JS.falsy (GEMINI_API_KEY w) = true) as ->
    by (destruct H as [-> | ->]; reflexivity).
  reflexivity.
Qed.

End ChatHandler.

Lemma missing_api_key_is_server_error_witness :
  Chat.handleChatMessage meridianDistance (fun _ => "1e+21") "" ""
    (mkWorld (Some [cafeA]) (fun _ => TimedOut) GeocodeFailure (Some "")
       (fun _ => Some "Welcome aboard!"))
    "coffee nearby?" (Some (0, 0)) []
  = ([], Return (Chat.ServerError "Failed to process chat message"
                   "I'm sorry, I'm having trouble right now. Please try again in a moment."
                   "GEMINI_API_KEY is not configured")).
Proof.
  apply (missing_api_key_is_server_error meridianDistance (fun _ => "1e+21")
           "" ""
           (mkWorld (Some [cafeA]) (fun _ => TimedOut) GeocodeFailure (Some "")
              (fun _ => Some "Welcome aboard!"))
           "coffee nearby?" (Some (0, 0)) []).
  right. reflexivity.
Defined.

Section NearSetFacts.
Variable calculateDistance : Q -> Q -> Q -> Q -> Q.
Variables userLat userLng maxDistance : Q.

Abbreviation raw ad :=
  (calculateDistance userLat userLng (latitude ad) (longitude ad)).
Abbreviation reach :=
  (inReach calculateDistance userLat userLng maxDistance).

Lemma inReach_length (ads : list Ad) :
  List.length (reach ads)
  = List.length
      (filter (fun ad => active ad && Qle_bool (raw ad) maxDistance) ads).
Proof.
  unfold inReach. rewrite sort_length, filter_map_commute.
  rewrite length_map, <- filter_both. reflexivity.
Qed.

(** X14.  With a location and a readable catalog, the number of businesses
    [getNearbyAds] returns is the number of active records within the
    ceiling, capped at five; and if the ids of the catalog are pairwise
    distinct, no business is returned twice. *)
Theorem nearby_ads_count (w : World) (ads : list Ad) :
  adsFile w = Some ads ->
  exists near,
    completion (Chat.getNearbyAds calculateDistance w
                  (Some (userLat, userLng)) maxDistance)
    = Return near /\
    List.length near
    = Nat.min 5 (List.length
                   (filter (fun ad => active ad &&
                                      Qle_bool (raw ad) maxDistance) ads)) /\
    (NoDup (map id ads) -> NoDup (map (fun m => id (ad m)) near)).
Proof.
  intros Hw. rewrite getNearbyAds_run, Hw. eexists.
  split; [reflexivity|]. split.
  - unfold JS.slice0. now rewrite length_firstn, inReach_length.
  - intros H. unfold JS.slice0. rewrite <- firstn_map. apply firstn_NoDup.
    unfold inReach.
    eapply Permutation_NoDup;
      [apply Permutation_map, sort_Permutation|].
    apply filter_keeps_distinct. rewrite map_map. cbn.
    now apply filter_keeps_distinct.
Qed.

End NearSetFacts.

Lemma nearby_ads_count_witness :
  exists near,
    completion (Chat.getNearbyAds meridianDistance
                  (quietWorld (Some [cafeA; cafeB; closed]))
                  (Some (0, 0)) 20000)
    = Return near /\
    List.length near = 2%nat.
Proof.
  destruct (nearby_ads_count meridianDistance 0 0 20000
              (quietWorld (Some [cafeA; cafeB; closed]))
              [cafeA; cafeB; closed] eq_refl)
    as (near & Hrun & Hlen & _).
  exists near. split; [exact Hrun|exact Hlen].
Defined.

Section ChatRuns.
Variable calculateDistance : Q -> Q -> Q -> Q -> Q.
Variable Number_toString : Q -> string.
Variables preamble rules : string.
Variable w : World.

Abbreviation handleChatMessage :=
  (Chat.handleChatMessage calculateDistance Number_toString preamble rules w).

Abbreviation promptFor message userLocation conversationHistory name near :=
  (Chat.systemPrompt Number_toString preamble rules name userLocation
     (Chat.formatAdsContext Number_toString near) ++
   nl ++ nl ++ "Conversation history:" ++ nl ++
   Chat.historyLines conversationHistory ++
   nl ++ "User's new message: " ++ message).

Abbreviation apology :=
  "I'm sorry, I'm having trouble right now. Please try again in a moment.".

(** X15.  With an API key, a location and a readable catalog, a chat turn
    performs exactly three effects in this order: one geocoding request, one
    read of ads.json, one call of the generator.  If the generator returns
    a text, the reply carries that text, the number of nearby businesses put
    in the prompt (at most five) and the location name; if the generator
    fails, the reply is the 500 apology. *)
Theorem chat_turn_with_location (message : string) (lat lng : Q)
  (conversationHistory : list (Chat.Role * string)) (ads : list Ad) :
  JS.falsy (GEMINI_API_KEY w) = false ->
  adsFile w = Some ads ->
  exists name near prompt,
    prompt = promptFor message (Some (lat, lng)) conversationHistory name near /\
    completion (Chat.getNearbyAds calculateDistance w (Some (lat, lng))
                  Chat.maxDistance_default) = Return near /\
    (List.length near <= 5)%nat /\
    trace (handleChatMessage message (Some (lat, lng)) conversationHistory)
    = [NominatimRequest lat lng; ReadAdsFile; GenerateContent prompt] /\
    (forall text,
        gemini w prompt = Some text ->
        completion
          (handleChatMessage message (Some (lat, lng)) conversationHistory)
        = Return (Chat.ChatReply text (List.length near) name)) /\
    (gemini w prompt = None ->
     exists details,
       completion
         (handleChatMessage message (Some (lat, lng)) conversationHistory)
       = Return (Chat.ServerError "Failed to process chat message" apology
                   details)).
Proof.
  intros Hk Hw.
  destruct (location_name_always_available w (Some (lat, lng)))
    as (name & Hname & _).
  exists name. eexists. eexists. split; [reflexivity|].
  rewrite getNearbyAds_run, Hw. split; [reflexivity|].
  split; [apply firstn_le_length|].
  unfold Chat.handleChatMessage. rewrite Hk, Hname, getNearbyAds_run, Hw.
  cbn -[Chat.systemPrompt Chat.formatAdsContext Chat.historyLines
        String.append JS.slice0 inReach].
  destruct (gemini w _) as [text|] eqn:E;
    cbn -[Chat.systemPrompt Chat.formatAdsContext Chat.historyLines
          String.append JS.slice0 inReach].
  - split; [reflexivity|]. split; [|discriminate].
    intros text' H. injection H as <-. reflexivity.
  - split; [reflexivity|]. split; [discriminate|].
    intros _. eexists. reflexivity.
Qed.

(** X16.  Without a location a chat turn does not depend on ads.json at
    all: with an API key it calls the generator once, with the location
    name 'Unknown location' and the empty-state sentence as business
    section, and a generated text is returned with zero nearby businesses,
    even when ads.json is unreadable. *)
Theorem chat_turn_without_location (message : string)
  (conversationHistory : list (Chat.Role * string)) :
  JS.falsy (GEMINI_API_KEY w) = false ->
  trace (handleChatMessage message None conversationHistory)
  = [GenerateContent
       (promptFor message None conversationHistory "Unknown location" [])] /\
  forall text,
    gemini w (promptFor message None conversationHistory "Unknown location" [])
    = Some text ->
    completion (handleChatMessage message None conversationHistory)
    = Return (Chat.ChatReply text 0 "Unknown location").
Proof.
  intros Hk. unfold Chat.handleChatMessage. rewrite Hk.
  cbn -[Chat.systemPrompt Chat.formatAdsContext Chat.historyLines
        String.append].
  destruct (gemini w _) as [text|] eqn:E; cbn.
  - split; [reflexivity|]. intros text' H. injection H as <-. reflexivity.
  - split; [reflexivity|]. intros text' H. discriminate H.
Qed.

End ChatRuns.

Lemma chat_turn_with_location_witness :
  exists near,
    completion (Chat.getNearbyAds meridianDistance
                  (quietWorld (Some [cafeA; cafeB]))
                  (Some (0, 0)) Chat.maxDistance_default) = Return near /\
    (List.length near <= 5)%nat.
Proof.
  destruct (chat_turn_with_location meridianDistance (fun _ => "1e+21") "" ""
              (quietWorld (Some [cafeA; cafeB])) "coffee nearby?" 0 0 []
              [cafeA; cafeB] eq_refl eq_refl)
    as (name & near & prompt & _ & Hnear & Hlen & _).
  exists near. split; assumption.
Defined.

Lemma chat_turn_without_location_witness :
  completion
    (Chat.handleChatMessage meridianDistance (fun _ => "1e+21") "" ""
       (quietWorld None) "coffee nearby?" None [])
  = Return (Chat.ChatReply "Welcome aboard!" 0 "Unknown location").
Proof.
  apply (proj2 (chat_turn_without_location meridianDistance
                  (fun _ => "1e+21") "" "" (quietWorld None)
                  "coffee nearby?" [] eq_refl)).
  reflexivity.
Defined.

(** ** The page: loading and browsing the recommendations *)

Lemma recommendedAd_in_range (ads : list App.AdEntry) (i : nat) :
  (i < List.length ads)%nat -> exists a, Page.recommendedAd ads i = Some a.
Proof.
  intros H. unfold Page.recommendedAd.
  replace (0 <? List.length ads)%nat with true
    by (symmetry; apply Nat.ltb_lt; lia).
  destruct (nth_error ads i) as [a|] eqn:E; [now exists a|].
  apply nth_error_None in E. lia.
Qed.

Lemma handleNextAd_in_range (ads : list App.AdEntry) (i : nat) :
  (i < List.length ads)%nat ->
  (Page.handleNextAd ads i < List.length ads)%nat.
Proof.
  intros H. unfold Page.handleNextAd.
  destruct (0 <? List.length ads)%nat; cbn [andb]; [|exact H].
  destruct (Nat.ltb_spec i (List.length ads - 1)); lia.
Qed.

Lemma handlePrevAd_in_range (ads : list App.AdEntry) (i : nat) :
  (i < List.length ads)%nat ->
  (Page.handlePrevAd ads i < List.length ads)%nat.
Proof.
  intros H. unfold Page.handlePrevAd.
  destruct (0 <? List.length ads)%nat; cbn [andb]; [|exact H].
  destruct (Nat.ltb_spec 0 i); lia.
Qed.

Lemma step_inList (c : Page.Carousel) (event : Page.Event) :
  (Page.resetPending c = false ->
   inList (Page.carouselAds c, Page.currentAdIndex c)) ->
  Page.resetPending (Page.step c event) = false ->
  inList (Page.carouselAds (Page.step c event),
          Page.currentAdIndex (Page.step c event)).
Proof.
  destruct c as [ads i pending]. unfold inList. cbn [fst snd].
  destruct event as [| |ads'|];
    cbn [Page.step Page.carouselAds Page.currentAdIndex Page.resetPending];
    intros H Hp.
  - destruct (H Hp) as [[-> ->]|Hi]; [now left|].
    right. now apply handleNextAd_in_range.
  - destruct (H Hp) as [[-> ->]|Hi]; [now left|].
    right. now apply handlePrevAd_in_range.
  - discriminate Hp.
  - destruct pending;
      cbn [Page.carouselAds Page.currentAdIndex Page.resetPending] in *.
    + destruct ads; [now left|right; cbn; lia].
    + now apply H.
Qed.

Lemma fold_step_inList (events : list Page.Event) (c : Page.Carousel) :
  (Page.resetPending c = false ->
   inList (Page.carouselAds c, Page.currentAdIndex c)) ->
  Page.resetPending (fold_left Page.step events c) = false ->
  inList (Page.carouselAds (fold_left Page.step events c),
          Page.currentAdIndex (fold_left Page.step events c)).
Proof.
  revert c. induction events as [|e events IH]; intros c H; [exact H|].
  cbn [fold_left]. apply IH. now apply step_inList.
Qed.

(** X17.  The list of ads and the index of the carousel are separate
    states, and the index is reset by an effect that runs after the render
    with a new list.  Whatever clicks, new lists and runs of the effect the
    carousel goes through from its first render: (1) the ad on display is
    always one of the current list, never one of a list before; (2) in
    every render with no reset pending the index is inside the list, so a
    non-empty list has an ad on display and only an empty list shows none;
    (3) in a render with the reset pending, nothing is on display exactly
    when the list is empty or the index left over is beyond it; (4) the
    run of the effect then puts the first ad of the list on display. *)
Theorem carousel_in_list_once_reset (events : list Page.Event) :
  let c := Page.run events in
  let ads := Page.carouselAds c in
  (forall a, Page.displayed c = Some a -> In a ads) /\
  (Page.resetPending c = false ->
   (ads = [] /\ Page.displayed c = None) \/
   ((Page.currentAdIndex c < List.length ads)%nat /\
    exists a, Page.displayed c = Some a)) /\
  (Page.resetPending c = true ->
   (Page.displayed c = None <->
    ads = [] \/ (List.length ads <= Page.currentAdIndex c)%nat) /\
   Page.resetPending (Page.step c Page.ResetEffect) = false /\
   Page.carouselAds (Page.step c Page.ResetEffect) = ads /\
   Page.displayed (Page.step c Page.ResetEffect) = hd_error ads).
Proof.
  pose proof (fold_step_inList events Page.mounted) as H.
  fold (Page.run events) in H. cbv zeta.
  destruct (Page.run events) as [ads i pending].
  unfold Page.displayed, inList in *.
  cbn [Page.carouselAds Page.currentAdIndex Page.resetPending fst snd] in *.
  split; [|split].
  - intros a Ha. unfold Page.recommendedAd in Ha.
    destruct (0 <? List.length ads)%nat; [|discriminate].
    eapply nth_error_In; eauto.
  - intros ->. destruct H as [[-> ->]|Hi]; [discriminate|reflexivity| |].
    + left. split; reflexivity.
    + right. split; [exact Hi|]. now apply recommendedAd_in_range.
  - intros ->. cbn [Page.step Page.resetPending Page.carouselAds
                    Page.currentAdIndex].
    split; [|split; [reflexivity|split; [reflexivity|]]].
    + unfold Page.recommendedAd. destruct ads as [|a ads].
      * split; [now left|reflexivity].
      * cbn [List.length Nat.ltb Nat.leb]. rewrite nth_error_None.
        split; [now right|]. intros [Hnil|Hlen]; [discriminate|exact Hlen].
    + now destruct ads.
Qed.

(** A render between a new list and the reset: the page was on the second
    of two ads when a list of one ad arrived; nothing is on display until
    the effect has run. *)
Example carousel_before_reset :
  let a := App.entry (App.withDistance meridianDistance 0 0 cafeA) None in
  let b := App.entry (App.withDistance meridianDistance 0 0 cafeB) None in
  let c := Page.run [Page.AdsLoaded [a; b]; Page.ResetEffect; Page.NextAd;
                     Page.AdsLoaded [b]] in
  Page.carouselAds c = [b] /\ Page.currentAdIndex c = 1%nat /\
  Page.displayed c = None /\
  Page.displayed (Page.step c Page.ResetEffect) = Some b.
Proof. cbv zeta. repeat split. Qed.

(** X18.  Inside the list the two arrows undo each other: after Next,
    Prev returns to the same ad unless the carousel was on the last ad, and
    after Prev, Next returns unless it was on the first; on the last ad Next
    does nothing and on the first ad Prev does nothing. *)
Theorem carousel_arrows_are_inverse (ads : list App.AdEntry) (i : nat) :
  (i < List.length ads)%nat ->
  ((i + 1 < List.length ads)%nat ->
   Page.handlePrevAd ads (Page.handleNextAd ads i) = i) /\
  ((0 < i)%nat -> Page.handleNextAd ads (Page.handlePrevAd ads i) = i) /\
  ((i + 1 = List.length ads)%nat -> Page.handleNextAd ads i = i) /\
  (i = O -> Page.handlePrevAd ads i = i).
Proof.
  intros H. unfold Page.handleNextAd, Page.handlePrevAd.
  replace (0 <? List.length ads)%nat with true
    by (symmetry; apply Nat.ltb_lt; lia).
  cbn [andb]. repeat split.
  - intros H1. replace (i <? List.length ads - 1)%nat with true
      by (symmetry; apply Nat.ltb_lt; lia).
    replace (0 <? i + 1)%nat with true by (symmetry; apply Nat.ltb_lt; lia).
    lia.
  - intros H1. replace (0 <? i)%nat with true
      by (symmetry; apply Nat.ltb_lt; lia).
    replace (i - 1 <? List.length ads - 1)%nat with true
      by (symmetry; apply Nat.ltb_lt; lia).
    lia.
  - intros H1. replace (i <? List.length ads - 1)%nat with false
      by (symmetry; apply Nat.ltb_ge; lia).
    reflexivity.
  - intros ->. reflexivity.
Qed.

Lemma carousel_arrows_are_inverse_witness :
  Page.handlePrevAd
    [App.entry (App.withDistance meridianDistance 0 0 cafeA) None;
     App.entry (App.withDistance meridianDistance 0 0 cafeB) None]
    (Page.handleNextAd
       [App.entry (App.withDistance meridianDistance 0 0 cafeA) None;
        App.entry (App.withDistance meridianDistance 0 0 cafeB) None] 0)
  = O.
Proof.
  apply (carousel_arrows_are_inverse
           [App.entry (App.withDistance meridianDistance 0 0 cafeA) None;
            App.entry (App.withDistance meridianDistance 0 0 cafeB) None] 0);
    cbn; lia.
Defined.

(** X19.  When the page has loaded the reply to an accepted query, it shows
    no error, it lists the ranked matches of the backend in their order, and
    the ad on display (index 0) is the first of the ranking: every other
    match ranks after it.  With no match the page shows no ad. *)
Theorem page_shows_top_ranked_match
  (parseFloat : string -> JS.number)
  (calculateDistance : Q -> Q -> Q -> Q -> Q)
  (w : World) (latitude longitude : string)
  (before : Page.AdsState) (location : Q * Q) :
  JS.falsy (Some latitude) || JS.falsy (Some longitude) = false ->
  validCoordinates (parseFloat latitude) (parseFloat longitude) = true ->
  exists reply,
    completion (App.recommendations parseFloat calculateDistance w
                  (Some latitude) (Some longitude)) = Return reply /\
    let state :=
      Page.useAdRecommendations before (Some location) (Page.Json reply) in
    let ranked :=
      App.matchingAds calculateDistance
        (JS.valueOf (parseFloat latitude)) (JS.valueOf (parseFloat longitude))
        (match adsFile w with Some ads => ads | None => [] end) in
    Page.error state = None /\
    Page.isLoading state = false /\
    map App.entry_id (Page.ads state) = map (fun m => id (ad m)) ranked /\
    match ranked with
    | [] => Page.recommendedAd (Page.ads state) 0 = None
    | top :: rest =>
      (exists duration,
          Page.recommendedAd (Page.ads state) 0
          = Some (App.entry top duration)) /\
      Forall (ranksBefore top) rest
    end.
Proof.
  intros Hp Hv. rewrite recommendations_run by assumption.
  eexists. split; [reflexivity|]. cbn zeta.
  pose proof (matchingAds_sorted calculateDistance
                (JS.valueOf (parseFloat latitude))
                (JS.valueOf (parseFloat longitude))
                (match adsFile w with Some ads => ads | None => [] end))
    as Hs.
  destruct (App.matchingAds _ _ _ _) as [|top rest] eqn:E.
  - cbn. repeat split.
  - cbn. repeat split.
    + f_equal. apply map_from_entry_id.
    + eexists. reflexivity.
    + now inversion Hs.
Qed.

Lemma page_shows_top_ranked_match_witness :
  exists reply,
    completion (App.recommendations parseDecimal meridianDistance
                  (mixedWorld (Some [edge; cafeB])) (Some "0") (Some "0"))
    = Return reply /\
    map App.entry_id
      (Page.ads (Page.useAdRecommendations (Page.mkAdsState [] true None)
                   (Some (0, 0)) (Page.Json reply)))
    = ["b"; "edge"].
Proof.
  destruct (page_shows_top_ranked_match parseDecimal meridianDistance
              (mixedWorld (Some [edge; cafeB])) "0" "0"
              (Page.mkAdsState [] true None) (0, 0) eq_refl eq_refl)
    as (reply & Hrun & _ & _ & Hids & _).
  exists reply. split; [exact Hrun|exact Hids].
Defined.

(** ** The chat window: one turn against the backend *)

(** X20.  A send with a blank input, or while an answer is awaited, changes
    nothing.  Otherwise the backend is asked with the input as message and
    the earlier messages, in order, as history; it always replies; and once
    the reply is in, the window holds the earlier messages followed by the
    user's message and one assistant message, whose text is either a text
    the generator returned or the backend's apology, never the details of
    an error.  The input is cleared and the window is idle again. *)
Theorem chat_window_turn
  (isWhiteSpace : ascii -> bool)
  (calculateDistance : Q -> Q -> Q -> Q -> Q) (Number_toString : Q -> string)
  (preamble rules : string) (w : World)
  (state : Chatbot.State) (userLocation : option (Q * Q)) :
  (Chatbot.blank isWhiteSpace (Chatbot.inputMessage state)
   || Chatbot.isLoading state = true ->
   forall fetched,
     Chatbot.handleSendMessage isWhiteSpace state fetched = state) /\
  (Chatbot.blank isWhiteSpace (Chatbot.inputMessage state)
   || Chatbot.isLoading state = false ->
   let '(message, location, conversationHistory) :=
     Chatbot.requestBody state userLocation in
   exists reply,
     completion (Chat.handleChatMessage calculateDistance Number_toString
                   preamble rules w message location conversationHistory)
     = Return reply /\
     let after :=
       Chatbot.handleSendMessage isWhiteSpace state (Chatbot.Json reply) in
     Chatbot.messages after
     = (Chatbot.messages state ++
        [Chatbot.mkMessage Chat.user (Chatbot.inputMessage state);
         Chatbot.mkMessage Chat.assistant (Chatbot.response reply)])%list /\
     Chatbot.inputMessage after = "" /\
     Chatbot.isLoading after = false /\
     (Chatbot.response reply
      = "I'm sorry, I'm having trouble right now. Please try again in a moment."
      \/ exists prompt, gemini w prompt = Some (Chatbot.response reply))).
Proof.
  split.
  - intros H fetched. unfold Chatbot.handleSendMessage. now rewrite H.
  - intros H. unfold Chatbot.requestBody.
    destruct (handleChatMessage_reply calculateDistance Number_toString preamble
                rules w (Chatbot.inputMessage state) userLocation
                (map (fun m => (Chatbot.role m, Chatbot.content m))
                   (Chatbot.messages state)))
      as (reply & Hrun & Hreply).
    exists reply. split; [exact Hrun|].
    unfold Chatbot.handleSendMessage. rewrite H. cbn.
    split; [now rewrite <- app_assoc|]. split; [reflexivity|].
    split; [reflexivity|].
    destruct reply as [text n name|error response details]; cbn.
    + right. exact Hreply.
    + left. apply Hreply.
Qed.

(** A turn against a backend whose ads.json is unreadable. *)
Example chat_window_turn_unreadable_catalog :
  Chatbot.messages
    (Chatbot.handleSendMessage (fun c => Ascii.eqb c " ")
       (Chatbot.mkState true [] "coffee nearby?" false)
       (match completion
                (Chat.handleChatMessage meridianDistance (fun _ => "1e+21")
                   "" "" (quietWorld None) "coffee nearby?" (Some (0, 0)) [])
        with
        | Return reply => Chatbot.Json reply
        | Throw _ => Chatbot.Rejected
        end))
  = [Chatbot.mkMessage Chat.user "coffee nearby?";
     Chatbot.mkMessage Chat.assistant
       "I'm sorry, I'm having trouble right now. Please try again in a moment."].
Proof. reflexivity. Qed.

(** ** The chat window: rendering a message *)

Lemma prefix_split (scheme s : string) :
  String.prefix scheme s = true ->
  s = scheme ++ Chatbot.drop (String.length scheme) s.
Proof.
  revert s. induction scheme as [|c scheme IH]; intros s H; [reflexivity|].
  destruct s as [|d s]; [discriminate H|]. cbn in H.
  destruct (ascii_dec c d) as [->|]; [|discriminate H].
  cbn. f_equal. now apply IH.
Qed.




Section Rendering.
Variable isWhiteSpace : ascii -> bool.

Abbreviation nonSpaceRun := (Chatbot.nonSpaceRun isWhiteSpace).
Abbreviation matchScheme := (Chatbot.matchScheme isWhiteSpace).
Abbreviation matchUrl := (Chatbot.matchUrl isWhiteSpace).
Abbreviation containsUrl := (Chatbot.containsUrl isWhiteSpace).
Abbreviation splitFrom := (Chatbot.splitFrom isWhiteSpace).

Lemma nonSpaceRun_split (s : string) :
  s = fst (nonSpaceRun s) ++ snd (nonSpaceRun s) /\
  noSpace isWhiteSpace (fst (nonSpaceRun s)) = true.
Proof.
  induction s as [|c s [IH1 IH2]]; [split; reflexivity|].
  cbn. destruct (isWhiteSpace c) eqn:E; [split; reflexivity|].
  destruct (nonSpaceRun s) as [run rest]. cbn in *.
  split; [now f_equal|]. now rewrite E.
Qed.



Lemma matchScheme_Some (scheme s url rest : string) :
  matchScheme scheme s = Some (url, rest) ->
  s = url ++ rest /\
  exists run, url = scheme ++ run /\ run <> "" /\
              noSpace isWhiteSpace run = true.
Proof.
  unfold Chatbot.matchScheme.
  destruct (String.prefix scheme s) eqn:P; [|discriminate].
  pose proof (nonSpaceRun_split (Chatbot.drop (String.length scheme) s))
    as [Hs Hn].
  destruct (nonSpaceRun (Chatbot.drop (String.length scheme) s))
    as [[|c run] rest']; [discriminate|].
  intros H. injection H as <- <-. cbn [fst snd] in *. split.
  - rewrite append_assoc, <- Hs. now apply prefix_split.
  - exists (String c run). repeat split; [discriminate|exact Hn].
Qed.


Lemma matchUrl_Some (s url rest : string) :
  matchUrl s = Some (url, rest) -> s = url ++ rest /\ isUrl isWhiteSpace url.
Proof.
  unfold Chatbot.matchUrl.
  destruct (matchScheme "https://" s) as [[u r]|] eqn:E.
  - intros H. injection H as <- <-.
    apply matchScheme_Some in E as (Hs & run & Hu & Hr & Hn).
    split; [exact Hs|]. exists "https://", run. auto.
  - intros H. apply matchScheme_Some in H as (Hs & run & Hu & Hr & Hn).
    split; [exact Hs|]. exists "http://", run. auto.
Qed.









Lemma splitFrom_concat (fuel : nat) (s piece : string) :
  String.concat "" (splitFrom fuel s piece) = piece ++ s.
Proof.
  revert s piece. induction fuel as [|fuel IH]; intros s piece;
    [reflexivity|].
  cbn -[Chatbot.matchUrl]. destruct (matchUrl s) as [[url rest]|] eqn:E.
  - apply matchUrl_Some in E as (-> & _).
    specialize (IH rest ""). cbn in IH.
    change (String.concat "" (piece :: url :: splitFrom fuel rest ""))
      with (piece ++ "" ++
            String.concat "" (url :: splitFrom fuel rest "")).
    cbn [String.append]. f_equal.
    destruct (splitFrom fuel rest "") as [|p l] eqn:S.
    + cbn in IH. subst rest. cbn. now rewrite !append_nil_r.
    + change (String.concat "" (url :: p :: l))
        with (url ++ "" ++ String.concat "" (p :: l)).
      cbn [String.append]. now rewrite IH.
  - destruct s as [|c s]; [cbn; now rewrite append_nil_r|].
    rewrite IH, append_assoc. reflexivity.
Qed.


(** X21.  Rendering a message loses nothing and adds nothing: the parts it
    is cut into, put together again in order, are the message. *)
Theorem rendered_parts_make_up_the_message (content : string) :
  String.concat "" (Chatbot.split isWhiteSpace content) = content /\
  String.concat ""
    (map (fun r => match r with
                   | Chatbot.Link href => href
                   | Chatbot.Span text => text
                   end)
         (Chatbot.renderMessageContent isWhiteSpace content))
  = content.
Proof.
  assert (String.concat "" (Chatbot.split isWhiteSpace content) = content)
    as H by apply splitFrom_concat.
  split; [exact H|].
  unfold Chatbot.renderMessageContent. rewrite map_map.
  rewrite <- H at 2. f_equal.
  rewrite <- (map_id (Chatbot.split isWhiteSpace content)) at 2.
  apply map_ext. intros part. now destruct (containsUrl part).
Qed.


End Rendering.

(** ** The page: wording distances and durations *)

Ltac by60 := unfold Qdiv in *; change (/ 60) with (1 # 60) in *.

(** Dividing a whole number below 2^31 by 60 in doubles and then taking
    the floor, directly or after adding a half, gives the integer
    quotient. *)
Lemma floor_div60 (n t : Z) :
  (0 <= n < 2 ^ 31)%Z -> t = 0%Z \/ t = 30%Z ->
  Qfloor (JS.div (inject_Z n) 60 + inject_Z t / 60) = ((n + t) / 60)%Z.
Proof.
  intros Hn Ht. apply Qfloor_unique.
  - pose proof (Z.div_mod (n + t) 60 ltac:(lia)) as Hdm.
    pose proof (Z.mod_pos_bound (n + t) 60 ltac:(lia)) as Hr.
    set (k := ((n + t) / 60)%Z) in *. set (r := ((n + t) mod 60)%Z) in *.
    destruct (Z.eq_dec n 0) as [->|Hn0].
    + assert (k = 0%Z) as -> by (destruct Ht as [-> | ->]; reflexivity).
      change (JS.div (inject_Z 0) 60) with 0.
      destruct Ht as [-> | ->]; discriminate.
    + assert (inject_Z n + inject_Z t == 60 * inject_Z k + inject_Z r) as Hq
        by (rewrite <- inject_Z_plus, Hdm, inject_Z_plus, inject_Z_mult;
            reflexivity).
      assert (1 <= inject_Z n) as Hn1
        by (change 1 with (inject_Z 1); rewrite <- Zle_Qle; lia).
      assert (inject_Z n < 2147483648) as Hn2
        by (change 2147483648 with (inject_Z (2 ^ 31));
            rewrite <- Zlt_Qlt; lia).
      assert (0 <= inject_Z r <= 59) as [Hr0 Hr1]
        by (change 0 with (inject_Z 0); change 59 with (inject_Z 59);
            rewrite <- !Zle_Qle; lia).
      assert (inject_Z t == 0 \/ inject_Z t == 30) as Ht'
        by (destruct Ht as [-> | ->]; [left|right]; reflexivity).
      assert (2 ^ (-1022) <= inject_Z n / 60) as Hnormal.
      { apply Qle_trans with (2 ^ (-6)).
        - apply Qpower_le_compat_l; [lia|discriminate].
        - change (2 ^ (-6)) with (1 # 64). by60. lra. }
      pose proof (double_error _ Hnormal) as He.
      apply Qabs_Qle_condition in He. destruct He as [He1 He2].
      unfold JS.div. set (D := JS.double (inject_Z n / 60)) in *.
      destruct (Z.eq_dec r 0) as [Hr'|Hr'].
      * rewrite Hr' in Hq. change (inject_Z 0) with 0 in Hq.
        assert (D == inject_Z n / 60) as Hex.
        { subst D. destruct Ht as [-> | ->].
          - apply (double_exact _ (2 * k)); [lia|].
            rewrite inject_Z_mult. change (inject_Z 2) with 2.
            change (inject_Z 0) with 0 in Hq.
            unfold Qdiv in *. change (/ 60) with (1 # 60).
            change (/ 2) with (1 # 2). lra.
          - apply (double_exact _ (2 * k - 1)); [lia|].
            unfold Z.sub. rewrite inject_Z_plus, inject_Z_mult.
            change (inject_Z 2) with 2. change (inject_Z (- (1))) with (-1 # 1).
            change (inject_Z 30) with 30 in Hq.
            unfold Qdiv in *. change (/ 60) with (1 # 60).
            change (/ 2) with (1 # 2). lra. }
        destruct Ht' as [Ht'|Ht']; by60; lra.
      * assert (1 <= inject_Z r)
          by (change 1 with (inject_Z 1); rewrite <- Zle_Qle; lia).
        destruct Ht' as [Ht'|Ht']; by60; lra.
  - pose proof (Z.div_mod (n + t) 60 ltac:(lia)) as Hdm.
    pose proof (Z.mod_pos_bound (n + t) 60 ltac:(lia)) as Hr.
    set (k := ((n + t) / 60)%Z) in *. set (r := ((n + t) mod 60)%Z) in *.
    destruct (Z.eq_dec n 0) as [->|Hn0].
    + assert (k = 0%Z) as -> by (destruct Ht as [-> | ->]; reflexivity).
      change (JS.div (inject_Z 0) 60) with 0.
      destruct Ht as [-> | ->]; reflexivity.
    + assert (inject_Z n + inject_Z t == 60 * inject_Z k + inject_Z r) as Hq
        by (rewrite <- inject_Z_plus, Hdm, inject_Z_plus, inject_Z_mult;
            reflexivity).
      assert (1 <= inject_Z n) as Hn1
        by (change 1 with (inject_Z 1); rewrite <- Zle_Qle; lia).
      assert (inject_Z n < 2147483648) as Hn2
        by (change 2147483648 with (inject_Z (2 ^ 31));
            rewrite <- Zlt_Qlt; lia).
      assert (0 <= inject_Z r <= 59) as [Hr0 Hr1]
        by (change 0 with (inject_Z 0); change 59 with (inject_Z 59);
            rewrite <- !Zle_Qle; lia).
      assert (inject_Z t == 0 \/ inject_Z t == 30) as Ht'
        by (destruct Ht as [-> | ->]; [left|right]; reflexivity).
      assert (2 ^ (-1022) <= inject_Z n / 60) as Hnormal.
      { apply Qle_trans with (2 ^ (-6)).
        - apply Qpower_le_compat_l; [lia|discriminate].
        - change (2 ^ (-6)) with (1 # 64). by60. lra. }
      pose proof (double_error _ Hnormal) as He.
      apply Qabs_Qle_condition in He. destruct He as [He1 He2].
      unfold JS.div. set (D := JS.double (inject_Z n / 60)) in *.
      destruct Ht' as [Ht'|Ht']; by60; lra.
Qed.

Lemma Qle_bool_inject (a b : Z) :
  Qle_bool (inject_Z a) (inject_Z b) = (a <=? b)%Z.
Proof.
  apply eq_true_iff_eq. rewrite Qle_bool_iff, <- Zle_Qle. symmetry.
  apply Z.leb_le.
Qed.

Lemma toStringInteger_whole (toStringLarge : Q -> string) (x : Q) (z : Z) :
  x == inject_Z z -> (0 <= z < 10 ^ 21)%Z ->
  JS.toStringInteger toStringLarge x = digits z.
Proof.
  intros Hx Hz. unfold JS.toStringInteger.
  assert (Qle_bool 0 x = true) as ->.
  { apply Qle_bool_iff. rewrite Hx. change 0 with (inject_Z 0).
    rewrite <- Zle_Qle. lia. }
  assert (Qle_bool (inject_Z (10 ^ 21)) x = false) as ->.
  { apply not_true_iff_false. rewrite Qle_bool_iff, Hx, <- Zle_Qle. lia. }
  cbn [String.append]. unfold digits.
  now rewrite (Qfloor_comp _ _ Hx), Qfloor_Z.
Qed.

Lemma minutes_of_seconds (n : Z) :
  (0 <= n < 2 ^ 31)%Z ->
  JS.Math_round (JS.div (inject_Z n) 60) = inject_Z ((n + 30) / 60).
Proof.
  intros Hn. unfold JS.Math_round. f_equal.
  rewrite <- (floor_div60 n 30) by auto. apply Qfloor_comp.
  assert (0.5 == inject_Z 30 / 60) as -> by reflexivity. reflexivity.
Qed.

Lemma hours_of_minutes (m : Z) :
  (0 <= m < 2 ^ 31)%Z ->
  JS.Math_floor (JS.div (inject_Z m) 60) = inject_Z (m / 60).
Proof.
  intros Hm. unfold JS.Math_floor. f_equal.
  rewrite <- (Z.add_0_r m) at 2. rewrite <- (floor_div60 m 0) by auto.
  apply Qfloor_comp.
  assert (inject_Z 0 / 60 == 0) as -> by reflexivity. ring.
Qed.

Lemma rem_60 (m : Z) :
  (0 <= m)%Z -> JS.rem (inject_Z m) 60 == inject_Z (m mod 60).
Proof.
  intros Hm. unfold JS.rem.
  assert (Qle_bool 0 (inject_Z m / 60) = true) as ->.
  { apply Qle_bool_iff. by60.
    assert (0 <= inject_Z m)
      by (change 0 with (inject_Z 0); rewrite <- Zle_Qle; lia).
    lra. }
  change 60 with (inject_Z 60) at 2. rewrite <- Zdiv_Qdiv.
  rewrite (Z.div_mod m 60) at 1 by lia.
  rewrite inject_Z_plus, inject_Z_mult. change (inject_Z 60) with 60. ring.
Qed.

Section Wording.
Variable Number_toString : Q -> string.

Lemma formatDuration_whole (n : Z) :
  (0 <= n < 2 ^ 31)%Z ->
  Page.formatDuration Number_toString (inject_Z n)
  = durationText ((n + 30) / 60).
Proof.
  intros Hn. unfold Page.formatDuration, durationText.
  rewrite minutes_of_seconds by assumption.
  assert (0 <= (n + 30) / 60 < 2 ^ 31)%Z as Hm.
  { split; [apply Z.div_pos; lia|].
    apply Z.div_lt_upper_bound; lia. }
  set (m := ((n + 30) / 60)%Z) in *.
  change 1 with (inject_Z 1). change 60 with (inject_Z 60) at 1.
  rewrite !Qle_bool_inject, <- !Z.ltb_antisym.
  destruct (m <? 1)%Z; [reflexivity|].
  destruct (Z.ltb_spec m 60) as [H60|H60].
  - now rewrite (toStringInteger_whole _ _ m) by (try reflexivity; lia).
  - change (inject_Z 60) with 60.
    rewrite hours_of_minutes by assumption.
    pose proof (rem_60 m ltac:(lia)) as Hrem.
    pose proof (Z.mod_pos_bound m 60 ltac:(lia)) as Hmod.
    assert (0 <= m / 60 < 10 ^ 21)%Z as Hdiv.
    { split; [apply Z.div_pos; lia|]. apply Z.div_lt_upper_bound; lia. }
    rewrite (Qleb_comp _ _ Hrem 0 0 (Qeq_refl 0)).
    change 0 with (inject_Z 0) at 1.
    rewrite Qle_bool_inject, <- Z.ltb_antisym.
    rewrite (toStringInteger_whole _ _ (m / 60)) by (try reflexivity; lia).
    destruct (0 <? m mod 60)%Z; [|reflexivity].
    now rewrite (toStringInteger_whole _ _ (m mod 60) Hrem) by lia.
Qed.

(** X23.  For an ad whose routed duration is a whole number of seconds (as
    the backend sends it), the page words the time from the minutes rounded
    to the nearest, halves up: '< 1 min' below 30 seconds, 'M min' below an
    hour, and from 60 minutes on 'Hh Mm' with M between 1 and 59, or 'Hh'
    when no minute is left over; the arithmetic on doubles loses
    nothing. *)
Theorem display_time_of_routed_ad (ad : App.AdEntry) (seconds : Z) :
  (0 <= seconds < 2 ^ 31)%Z ->
  App.entry_duration ad = Some (inject_Z seconds) ->
  Page.getDisplayTime Number_toString ad
  = durationText ((seconds + 30) / 60) /\
  (seconds < 30 ->
   Page.getDisplayTime Number_toString ad = "< 1 min")%Z /\
  (30 <= seconds ->
   Page.getDisplayTime Number_toString ad <> "< 1 min")%Z.
Proof.
  intros Hs Hd. unfold Page.getDisplayTime. rewrite Hd.
  rewrite formatDuration_whole by assumption.
  split; [reflexivity|]. unfold durationText. split; intros H.
  - replace ((seconds + 30) / 60)%Z with 0%Z; [reflexivity|].
    symmetry. apply Z.div_small. lia.
  - assert (1 <= (seconds + 30) / 60)%Z
      by (apply Z.div_le_lower_bound; lia).
    destruct (Z.ltb_spec ((seconds + 30) / 60) 1); [lia|].
    pose proof (string_of_N_digits (Z.to_N ((seconds + 30) / 60))) as [_ L1].
    pose proof (string_of_N_digits (Z.to_N ((seconds + 30) / 60 / 60)))
      as [D2 L2].
    unfold digits.
    destruct ((seconds + 30) / 60 <? 60)%Z.
    + destruct (JS.string_of_N (Z.to_N ((seconds + 30) / 60)))
        as [|c s] eqn:E; [cbn in L1; lia|].
      intros Heq. cbn in Heq. injection Heq as Hc Hs'.
      pose proof (allDigits_string_of_uint
                    (N.to_uint (Z.to_N ((seconds + 30) / 60)))) as Hall.
      fold (JS.string_of_N (Z.to_N ((seconds + 30) / 60))) in Hall.
      rewrite E in Hall. cbn in Hall. subst c. discriminate Hall.
    + destruct (JS.string_of_N (Z.to_N ((seconds + 30) / 60 / 60)))
        as [|c s] eqn:E; [cbn in L2; lia|].
      cbn in D2. apply andb_true_iff in D2 as [Dc _].
      destruct (0 <? ((seconds + 30) / 60) mod 60)%Z;
        intros Heq; cbn in Heq; injection Heq as Hc _;
        subst c; discriminate Dc.
Qed.

End Wording.

Lemma display_time_of_routed_ad_witness :
  Page.getDisplayTime (fun _ => "1e+21")
    (App.entry (App.withDistance meridianDistance 0 0 cafeA) (Some 3630))
  = "1h 1m".
Proof.
  apply (proj1 (display_time_of_routed_ad (fun _ => "1e+21")
                  (App.entry (App.withDistance meridianDistance 0 0 cafeA)
                             (Some 3630))
                  3630 ltac:(lia) eq_refl)).
Defined.

Section Distances.
Variable Number_toString : Q -> string.

Lemma toFixed_1_tenths (x : Q) (tenths : Z) :
  (10 <= tenths <= 16)%Z ->
  inject_Z tenths <= x * 10 + 0.5 -> x * 10 + 0.5 < inject_Z tenths + 1 ->
  JS.toFixed Number_toString 1 x = "1." ++ digits (tenths - 10).
Proof.
  intros Ht Hlo Hhi.
  assert (inject_Z 10 <= inject_Z tenths <= inject_Z 16) as [H10 H16]
    by (rewrite <- !Zle_Qle; lia).
  change (inject_Z 10) with 10 in H10. change (inject_Z 16) with 16 in H16.
  unfold JS.toFixed.
  assert (Qle_bool 0 x = true) as -> by (apply Qle_bool_iff; lra).
  assert (Qle_bool (inject_Z (10 ^ 21)) x = false) as ->.
  { apply not_true_iff_false. rewrite Qle_bool_iff.
    change (inject_Z (10 ^ 21)) with 1000000000000000000000. lra. }
  change (inject_Z (10 ^ Z.of_nat 1)) with 10.
  rewrite (Qfloor_unique _ tenths Hlo Hhi).
  assert (tenths = 10 \/ tenths = 11 \/ tenths = 12 \/ tenths = 13 \/
          tenths = 14 \/ tenths = 15 \/ tenths = 16)%Z as H by lia.
  destruct H as [-> | [-> | [-> | [-> | [-> | [-> | ->]]]]]]; reflexivity.
Qed.

(** X24.  A distance of a whole number of meters (as the backend sends it)
    is worded in whole meters below 1000 m, exactly as sent; from 1000 m to
    below 1600 m it is worded in kilometers with one decimal, from '1.0 km'
    to '1.6 km'. *)
Theorem distance_wording (meters : Z) :
  ((0 <= meters < 1000)%Z ->
   Page.formatDistance Number_toString (inject_Z meters)
   = digits meters ++ " m") /\
  ((1000 <= meters < 1600)%Z ->
   exists tenth,
     (0 <= tenth <= 6)%Z /\
     Page.formatDistance Number_toString (inject_Z meters)
     = "1." ++ digits tenth ++ " km").
Proof.
  split; intros Hm; unfold Page.formatDistance.
  - change 1000 with (inject_Z 1000). rewrite Qle_bool_inject.
    replace (1000 <=? meters)%Z with false
      by (symmetry; apply Z.leb_gt; lia).
    cbn [negb]. rewrite Math_round_integer.
    now rewrite (toStringInteger_whole _ _ meters) by (try reflexivity; lia).
  - change 1000 with (inject_Z 1000) at 1.
    change 1600 with (inject_Z 1600). rewrite !Qle_bool_inject.
    replace (1000 <=? meters)%Z with true
      by (symmetry; apply Z.leb_le; lia).
    replace (1600 <=? meters)%Z with false
      by (symmetry; apply Z.leb_gt; lia).
    cbn [negb].
    assert (inject_Z 1000 <= inject_Z meters) as H1
      by (rewrite <- Zle_Qle; lia).
    assert (inject_Z meters <= inject_Z 1599) as H2
      by (rewrite <- Zle_Qle; lia).
    change (inject_Z 1000) with 1000 in H1.
    change (inject_Z 1599) with 1599 in H2.
    assert (2 ^ (-1022) <= inject_Z meters / 1000) as Hnormal.
    { apply Qle_trans with (2 ^ 0).
      - apply Qpower_le_compat_l; [lia|discriminate].
      - change (2 ^ 0) with 1. unfold Qdiv.
        change (/ 1000) with (1 # 1000). lra. }
    pose proof (double_error _ Hnormal) as He.
    apply Qabs_Qle_condition in He. destruct He as [He1 He2].
    unfold JS.div. set (D := JS.double (inject_Z meters / 1000)) in *.
    unfold Qdiv in He1, He2. change (/ 1000) with (1 # 1000) in He1, He2.
    clearbody D. clear Hnormal.
    set (tenths := Qfloor (D * 10 + 0.5)).
    assert (10 <= tenths <= 16)%Z as Ht.
    { subst tenths. split.
      - assert (10 <= D * 10 + 0.5) as Hlo by lra.
        apply Qfloor_resp_le in Hlo. exact Hlo.
      - assert (Qfloor (D * 10 + 0.5) < 16 + 1)%Z; [|lia].
        apply Qfloor_lt_succ. change (inject_Z 16) with 16. lra. }
    exists (tenths - 10)%Z. split; [lia|].
    rewrite (toFixed_1_tenths D tenths Ht).
    + now rewrite append_assoc.
    + apply Qfloor_le.
    + pose proof (Qlt_floor (D * 10 + 0.5)) as H. fold tenths in H.
      now rewrite inject_Z_plus in H.
Qed.

End Distances.

Lemma distance_wording_witness :
  Page.formatDistance (fun _ => "1e+21") (inject_Z 250) = "250 m".
Proof.
  apply (proj1 (distance_wording (fun _ => "1e+21") 250)). lia.
Defined.
